(** * evolve_strings: pairs of non-homologous DNA strings

    A shallow embedding of [evolve_strings.py] and the properties of its
    sequence codec, fitness metric, tournament selection and generation
    driver.

    Conventions of the embedding.
    - A Python [str] is a [list ascii]; a one-character string (a base) is
      an [ascii].
    - Lengths, sizes, loop bounds and counters are [nat]; the arguments
      and results of [randint] and list subscripts are [Z], as in Python.
    - The ambient generator of the [random] module is an explicit
      [source]: an infinite tape of raw draws and a cursor.  Every library
      call ([random], [randint], [choice]) consumes one raw draw.
    - A Python float is modelled by the rational it denotes, kept in
      lowest terms; [score / max_score] is the exact quotient.
    - Exceptions are values of [exn]; a computation is a function from the
      source to either an exception or a result and the advanced source.
    - [print] is not modelled. *)

From Stdlib Require Import List Arith NArith ZArith QArith Qreduction.
From Stdlib Require Import Ascii Bool Lia Sorted.
Import ListNotations.
Local Open Scope nat_scope.

(* ================================================================== *)
(** ** Exceptions, the random source and the computation monad *)

Module Rand.

(** The exceptions [evolve_strings.py] and the library calls can raise. *)
Inductive exn : Type :=
| LengthMismatch      (* ValueError("Strings should be equal in length.") *)
| InvalidRate         (* ValueError("Mutation rate must be in the range of 0 to 1.") *)
| InvalidTournament   (* ValueError("Tournament size must be less than population size.") *)
| ZeroDivisionError   (* score/max_score with max_score == 0 *)
| IndexError          (* subscript out of range, choice of an empty list *)
| EmptyRange.         (* randint(a, b) with b < a *)

Record source : Type := { tape : nat -> N; cursor : nat }.

Definition M (A : Type) : Type := source -> exn + (A * source).

Definition ret {A} (a : A) : M A := fun s => inr (a, s).

Definition throw {A} (e : exn) : M A := fun _ => inl e.

Definition bind {A B} (c : M A) (k : A -> M B) : M B :=
  fun s => match c s with
           | inl e => inl e
           | inr (a, s') => k a s'
           end.

(** A pure, fallible computation run inside [M]. *)
Definition lift {A} (r : exn + A) : M A :=
  match r with
  | inl e => throw e
  | inr a => ret a
  end.

(** One raw draw from the tape. *)
Definition getrandbits : M N :=
  fun s => inr (tape s (cursor s), {| tape := tape s; cursor := S (cursor s) |}).

(** The source after [k] more draws. *)
Definition advance (k : nat) (s : source) : source :=
  {| tape := tape s; cursor := k + cursor s |}.

End Rand.
Export Rand.

Notation "x <- c ;; k" := (bind c (fun x => k))
  (at level 61, c at next level, right associativity).

Module PyLib.

(** [random.random()]: a 53-bit integer over [2^53], a float in [0, 1). *)
Definition random : M Q :=
  r <- getrandbits ;;
  ret (Z.of_N (r mod 2 ^ 53) # 2 ^ 53).

(** [random.randint(a, b)]: an integer of [a .. b], [ValueError] on an
    empty range. *)
Definition randint (a b : Z) : M Z :=
  if (b - a + 1 <=? 0)%Z then throw EmptyRange
  else r <- getrandbits ;;
       ret (a + Z.of_N r mod (b - a + 1))%Z.

(** [random.choice(seq)]: [seq[randbelow(len(seq))]], [IndexError] on an
    empty sequence. *)
Definition choice {A} (l : list A) : M A :=
  match l with
  | [] => throw IndexError
  | d :: _ =>
      r <- getrandbits ;;
      ret (nth (N.to_nat (r mod N.of_nat (length l))) l d)
  end.

(** [l[i]] for a list and an int: a negative subscript counts from the
    end, a subscript out of range raises. *)
Definition getitem {A} (l : list A) (i : Z) : exn + A :=
  let j := if (i <? 0)%Z then (i + Z.of_nat (length l))%Z else i in
  if (j <? 0)%Z then inl IndexError
  else match nth_error l (Z.to_nat j) with
       | Some x => inr x
       | None => inl IndexError
       end.

(** [l[lo:hi]] for [0 <= lo] and [0 <= hi]; bounds past the end are
    clamped. *)
Definition slice {A} (l : list A) (lo hi : nat) : list A :=
  firstn (hi - lo) (skipn lo l).

(** [x < y] on floats. *)
Definition Qltb (x y : Q) : bool := negb (Qle_bool y x).

(** The float [random()] returns on the source [s]. *)
Definition random_value (s : source) : Q :=
  Z.of_N (tape s (cursor s) mod 2 ^ 53) # 2 ^ 53.

(** The index [randint(0, n - 1)] returns on the source [s]. *)
Definition randint_value (n : nat) (s : source) : nat :=
  N.to_nat (tape s (cursor s) mod N.of_nat n).

End PyLib.
Export PyLib.

(* ================================================================== *)
(** ** Sequence codec: generation, mutation, terminator removal *)

Module Codec.

Definition str : Type := list ascii.

(** [bases = ["A", "C", "T", "G"]] *)
Definition bases : list ascii := ["A"; "C"; "T"; "G"]%char.

(** The tail of the loop body shared by [generate_string] and
    [mutate_string]:
<<
        if new_base == "T":
            count += 1
        if count == 4:
            new_base = "C"
            count = 0 # reset count
>>
    It returns the base to append and the new count. *)
Definition count_base (new_base : ascii) (count : nat) : ascii * nat :=
  let count := if (new_base =? "T")%char then count + 1 else count in
  if count =? 4 then ("C"%char, 0) else (new_base, count).

(** The loop of [generate_string], [x] iterations left. *)
Fixpoint generate_loop (x : nat) (new_bases : str) (count : nat) : M str :=
  match x with
  | 0 => ret new_bases
  | S x' =>
      new_base <- choice bases ;;
      let '(new_base, count) := count_base new_base count in
      generate_loop x' (new_bases ++ [new_base]) count
  end.

Definition generate_string (length : nat) : M str :=
  generate_loop length [] 0.

Definition mutate_base (base : ascii) : M ascii :=
  choice (filter (fun b => negb (b =? base)%char) bases).

(** The loop of [mutate_string] over the bases left to visit. *)
Fixpoint mutate_loop (original : str) (rate : Q) (new_bases : str) (count : nat)
  : M str :=
  match original with
  | [] => ret new_bases
  | base :: original' =>
      r <- random ;;
      new_base <- (if Qltb r rate then mutate_base base else ret base) ;;
      let '(new_base, count) := count_base new_base count in
      mutate_loop original' rate (new_bases ++ [new_base]) count
  end.

Definition mutate_string (original_string : str) (rate : Q) : M str :=
  if Qltb rate 0 || Qltb 1 rate then throw InvalidRate
  else mutate_loop original_string rate [] 0.

(** The loop of [remove_terminators]. *)
Fixpoint remove_loop (sequence : str) (count : nat) (new_bases : str) : str :=
  match sequence with
  | [] => new_bases
  | base :: sequence' =>
      let count := if (base =? "T")%char then count + 1 else count in
      if count =? 4 then remove_loop sequence' 0 (new_bases ++ ["A"%char])
      else remove_loop sequence' count (new_bases ++ [base])
  end.

Definition remove_terminators (sequence : str) : str :=
  remove_loop sequence 0 [].

(** A terminator: a run of four or more consecutive ["T"]. *)
Definition has_terminator (s : str) : Prop :=
  exists pre post, s = pre ++ ["T"; "T"; "T"; "T"]%char ++ post.

(** Executable check: [run] is the number of ["T"] immediately before. *)
Fixpoint terminator_free_from (s : str) (run : nat) : bool :=
  match s with
  | [] => true
  | c :: s' =>
      if (c =? "T")%char then (run + 1 <? 4) && terminator_free_from s' (run + 1)
      else terminator_free_from s' 0
  end.

Definition terminator_free (s : str) : bool := terminator_free_from s 0.

(** What the counting pass appends for the bases [s] when none of them is
    mutated: [count_base] threaded left to right. *)
Fixpoint count_bases (s : str) (count : nat) : str :=
  match s with
  | [] => []
  | base :: s' =>
      let '(new_base, count) := count_base base count in
      new_base :: count_bases s' count
  end.

End Codec.
Export Codec.

(* ================================================================== *)
(** ** Fitness evaluator *)

Module Fitness.

(** [a == b] on strings. *)
Fixpoint str_eqb (a b : str) : bool :=
  match a, b with
  | [], [] => true
  | x :: a', y :: b' => (x =? y)%char && str_eqb a' b'
  | _, _ => false
  end.

(** [range(len(full_string)-k+1)] is empty when [k > len(full_string)+1]. *)
Definition get_substrings (full_string : str) (k : nat) : list str :=
  map (fun i => slice full_string i (i + k))
      (seq 0 (length full_string + 1 - k)).

Definition get_sliding_window (substring : str) : nat :=
  if 1 <? length substring then length substring / 2 - 1 else 0.

(** The body of the loop of [score_substrings] at index [i]. *)
Definition score_at (substrings_1 substrings_2 : list str) (sliding_window : nat)
  (homology_score i : nat) : nat :=
  let list_length := length substrings_1 in
  let left_index := if sliding_window <=? i then i - sliding_window else 0 in
  let right_index :=
    if sliding_window <? list_length - i then i + sliding_window + 1
    else list_length in
  if existsb (str_eqb (nth i substrings_1 []))
             (slice substrings_2 left_index right_index)
  then homology_score + 1
  else homology_score.

Definition score_substrings (substrings_1 substrings_2 : list str)
  (sliding_window : nat) : nat :=
  fold_left (score_at substrings_1 substrings_2 sliding_window)
            (seq 0 (length substrings_1)) 0.

(** ["." * k] *)
Definition dots (k : nat) : str := repeat "."%char k.

(** The body of the loop of [score_fitness] at substring length [k], on
    the pair [(score, max_score)]. *)
Definition fitness_at (string_1 string_2 : str) (acc : nat * nat) (k : nat)
  : nat * nat :=
  let '(score, max_score) := acc in
  let length := length string_1 in
  let substrings_1 := get_substrings string_1 k in
  let substrings_2 := get_substrings string_2 k in
  let sliding_window := get_sliding_window (dots k) in
  let homology_score :=
    score_substrings substrings_1 substrings_2 sliding_window in
  let identity := repeat (dots k) (length + 1 - k) in
  (score + homology_score,
   max_score + score_substrings identity identity sliding_window).

(** [(score, max_score)] after the loop [for k in range(1, length)]. *)
Definition fitness_sums (string_1 string_2 : str) : nat * nat :=
  fold_left (fitness_at string_1 string_2)
            (seq 1 (length string_1 - 1)) (0, 0).

Definition score_fitness (string_1 string_2 : str) : exn + Q :=
  if negb (length string_1 =? length string_2) then inl LengthMismatch
  else
    let '(score, max_score) := fitness_sums string_1 string_2 in
    if max_score =? 0 then inl ZeroDivisionError
    else inr (Qred (Z.of_nat score # Pos.of_nat max_score)).

(** The sum of the list lengths [L - k + 1] over [k] in [range(1, L)]:
    the value [max_score] reaches for strings of length [L]. *)
Definition max_total (L : nat) : nat :=
  list_sum (map (fun k => L + 1 - k) (seq 1 (L - 1))).

End Fitness.
Export Fitness.

(* ================================================================== *)
(** ** Population, selection and the generation driver *)

Module Driver.

(** A pair of strings, one individual of the population. *)
Definition strings : Type := (str * str)%type.

(** The loop of [generate_population], [i] pairs left. *)
Fixpoint population_loop (string_length i : nat) (population : list strings)
  : M (list strings) :=
  match i with
  | 0 => ret population
  | S i' =>
      s0 <- generate_string string_length ;;
      s1 <- generate_string string_length ;;
      population_loop string_length i' (population ++ [(s0, s1)])
  end.

Definition generate_population (string_length size : nat) : M (list strings) :=
  population_loop string_length size [].

Definition cross_strings (strings_1 strings_2 : strings) : list strings :=
  let child_strings_1 := (fst strings_1, snd strings_2) in
  let child_strings_2 := (snd strings_1, fst strings_2) in
  [child_strings_1; child_strings_2].

(** [fitness] after the loop [for strings in population] that scores
    every pair. *)
Fixpoint fitness_loop (population : list strings) (fitness : list Q)
  : exn + list Q :=
  match population with
  | [] => inr fitness
  | s :: population' =>
      match score_fitness (fst s) (snd s) with
      | inl e => inl e
      | inr new_score => fitness_loop population' (fitness ++ [new_score])
      end
  end.

(** The tournament of individual [i]: the loop
    [for j in range(tournament_size)], [j] draws left. *)
Fixpoint tournament (j : nat) (population : list strings) (fitness : list Q)
  (i : nat) (best_suitor : strings) : M strings :=
  match j with
  | 0 => ret best_suitor
  | S j' =>
      suitor <- randint 0 (Z.of_nat (length population) - 1) ;;
      f_suitor <- lift (getitem fitness suitor) ;;
      f_i <- lift (getitem fitness (Z.of_nat i)) ;;
      if Qltb f_suitor f_i then
        best_suitor <- lift (getitem population suitor) ;;
        tournament j' population fitness i best_suitor
      else tournament j' population fitness i best_suitor
  end.

(** The loop [for i, strings in enumerate(population)] that builds
    [suitors]; [rest] is the part of the population still to visit and [i]
    the index of its head. *)
Fixpoint suitors_loop (rest : list strings) (i : nat)
  (population : list strings) (fitness : list Q) (tournament_size : nat)
  (suitors : list strings) : M (list strings) :=
  match rest with
  | [] => ret suitors
  | s :: rest' =>
      best_suitor <- tournament tournament_size population fitness i s ;;
      suitors_loop rest' (S i) population fitness tournament_size
                   (suitors ++ [best_suitor])
  end.

Definition select_suitors (population : list strings) (fitness : list Q)
  (tournament_size : nat) : M (list strings) :=
  suitors_loop population 0 population fitness tournament_size [].

(** The loop [for x in range(len(population)//2)] that draws [selection]. *)
Fixpoint selection_loop (x : nat) (population : list strings)
  (selection : list Z) : M (list Z) :=
  match x with
  | 0 => ret selection
  | S x' =>
      new_selection <- randint 0 (Z.of_nat (length population) - 1) ;;
      selection_loop x' population (selection ++ [new_selection])
  end.

(** [tuple(mutate_string(c, mutation_rate) for c in child)] *)
Definition mutate_child (child : strings) (mutation_rate : Q) : M strings :=
  c0 <- mutate_string (fst child) mutation_rate ;;
  c1 <- mutate_string (snd child) mutation_rate ;;
  ret (c0, c1).

(** The loop [for child in children]. *)
Fixpoint children_loop (children : list strings) (mutation_rate : Q)
  (mutated_children : list strings) : M (list strings) :=
  match children with
  | [] => ret mutated_children
  | child :: children' =>
      mutant_child <- mutate_child child mutation_rate ;;
      children_loop children' mutation_rate (mutated_children ++ [mutant_child])
  end.

(** The loop [for i in selection] that builds [new_generation]. *)
Fixpoint offspring_loop (selection : list Z) (population suitors : list strings)
  (mutation_rate : Q) (new_generation : list strings) : M (list strings) :=
  match selection with
  | [] => ret new_generation
  | i :: selection' =>
      p <- lift (getitem population i) ;;
      s <- lift (getitem suitors i) ;;
      mutated_children <- children_loop (cross_strings p s) mutation_rate [] ;;
      offspring_loop selection' population suitors mutation_rate
                     (new_generation ++ mutated_children)
  end.

Definition generate_new_strings (population : list strings)
  (tournament_size : nat) (mutation_rate : Q) : M (list strings) :=
  fitness <- lift (fitness_loop population []) ;;
  suitors <- select_suitors population fitness tournament_size ;;
  selection <- selection_loop (length population / 2) population [] ;;
  offspring_loop selection population suitors mutation_rate [].

(** The loop [for i in range(generations)] of [evolve_strings], with its
    two [break]s; it returns the population and [count]. *)
Fixpoint generations_loop (generations : nat) (population : list strings)
  (tournament_size : nat) (mutation_rate : Q) (count : nat)
  : M (list strings * nat) :=
  match generations with
  | 0 => ret (population, count)
  | S generations' =>
      if length population =? 0 then ret (population, count)
      else if length population <=? tournament_size then ret (population, count)
      else
        population <- generate_new_strings population tournament_size
                                           mutation_rate ;;
        generations_loop generations' population tournament_size mutation_rate
                         (count + 1)
  end.

(** An entry of the result: [(fitness[i], strings[0], strings[1])]. *)
Definition evolved : Type := (Q * str * str)%type.

Definition key (s : evolved) : Q := fst (fst s).

(** The loop [for i, strings in enumerate(population)] that pairs every
    individual with its score. *)
Fixpoint evolved_loop (rest : list strings) (i : nat) (fitness : list Q)
  (evolved_strings : list evolved) : exn + list evolved :=
  match rest with
  | [] => inr evolved_strings
  | s :: rest' =>
      match getitem fitness (Z.of_nat i) with
      | inl e => inl e
      | inr f =>
          evolved_loop rest' (S i) fitness
                       (evolved_strings ++ [(f, fst s, snd s)])
      end
  end.

(** [list.sort(key = lambda s: s[0])]: the stable sort by the key. *)
Fixpoint insert_sorted (x : evolved) (l : list evolved) : list evolved :=
  match l with
  | [] => [x]
  | y :: l' =>
      if Qle_bool (key x) (key y) then x :: l else y :: insert_sorted x l'
  end.

Definition sort_by_key (l : list evolved) : list evolved :=
  fold_right insert_sorted [] l.

Definition evolve_strings (population_size string_length generations
  tournament_size : nat) (mutation_rate : Q) : M (list evolved) :=
  if population_size <=? tournament_size then throw InvalidTournament
  else
    population <- generate_population string_length population_size ;;
    pc <- generations_loop generations population tournament_size
                           mutation_rate 0 ;;
    let population := fst pc in
    fitness <- lift (fitness_loop population []) ;;
    evolved_strings <- lift (evolved_loop population 0 fitness []) ;;
    ret (sort_by_key evolved_strings).

End Driver.
Export Driver.

(* ================================================================== *)
(** ** The tournament as the specification words it *)

Module Tournament.

(** The [t] indices that [t] successive calls of [randint(0, n - 1)] draw
    from the source [rng]. *)
Definition draws (n t : nat) (rng : source) : list nat :=
  map (fun x => randint_value n (advance x rng)) (seq 0 t).

(** The indices drawn in the tournament of individual [i]: the suitor loop
    runs the tournaments in order, each on [t] draws. *)
Definition tournament_draws (n t i : nat) (rng : source) : list nat :=
  draws n t (advance (i * t) rng).

(** Whether the drawn index [j] beats individual [i]:
    [fitness[j] < fitness[i]], strictly. *)
Definition beats (fitness : list Q) (i j : nat) : bool :=
  Qltb (nth j fitness 0%Q) (nth i fitness 0%Q).

(** The last drawn index that beats [i], if any. *)
Definition last_better (fitness : list Q) (i : nat) (drawn : list nat)
  : option nat :=
  find (beats fitness i) (rev drawn).

(** The suitor of [i]: [population[j]] for the last drawn [j] that beats
    [i], and [population[i]] itself when no draw does. *)
Definition chosen_suitor (population : list strings) (fitness : list Q)
  (i : nat) (drawn : list nat) : option strings :=
  match last_better fitness i drawn with
  | Some j => nth_error population j
  | None => nth_error population i
  end.

(** [b] is the suitor the specification gives individual [i] on the
    draws [drawn]: [population[j]] for the last drawn [j] with
    [fitness[j] < fitness[i]], and [population[i]] when no draw qualifies. *)
Definition is_suitor_of (population : list strings) (fitness : list Q)
  (i : nat) (drawn : list nat) (b : strings) : Prop :=
  (exists before j after,
      drawn = before ++ j :: after /\
      beats fitness i j = true /\
      (forall j', In j' after -> beats fitness i j' = false) /\
      nth_error population j = Some b)
  \/
  ((forall j, In j drawn -> beats fitness i j = false) /\
   nth_error population i = Some b).

End Tournament.
Export Tournament.

(* ================================================================== *)
(** ** Invariants and outcomes *)

Module Invariants.

(** Both strings of the pair have length [L]. *)
Definition pair_length (L : nat) (p : strings) : Prop :=
  length (fst p) = L /\ length (snd p) = L.

(** A pair [score_fitness] accepts: equal lengths, at least 2. *)
Definition scorable (p : strings) : Prop :=
  length (fst p) = length (snd p) /\ 2 <= length (fst p).

Definition unit_interval (q : Q) : Prop := (0 <= q)%Q /\ (q <= 1)%Q.

(** The rate fails the check of [mutate_string]. *)
Definition bad_rate (rate : Q) : Prop := Qltb rate 0 || Qltb 1 rate = true.

(** The result of a computation: a value that satisfies [post], or an
    exception among [allowed]. *)
Definition outcome {A : Type} (allowed : exn -> Prop) (post : A -> Prop)
  (r : exn + (A * source)) : Prop :=
  match r with
  | inr (a, _) => post a
  | inl e => allowed e
  end.

(** The only exception of the mating stage: a bad mutation rate. *)
Definition rate_error (rate : Q) (e : exn) : Prop :=
  e = InvalidRate /\ bad_rate rate.

(** The exceptions of a generation on pairs of length [L]. *)
Definition generation_error (L : nat) (rate : Q) (e : exn) : Prop :=
  (e = ZeroDivisionError /\ L < 2) \/ rate_error rate e.

(** The exceptions of [evolve_strings]. *)
Definition evolve_error (population_size string_length tournament_size : nat)
  (rate : Q) (e : exn) : Prop :=
  (e = InvalidTournament /\ population_size <= tournament_size) \/
  generation_error string_length rate e.

(** The order of the final sort: by the fitness component. *)
Definition le_key (x y : evolved) : Prop := (key x <= key y)%Q.

(** Ascending by the fitness component. *)
Definition sorted_by_fitness (l : list evolved) : Prop := Sorted le_key l.

(** A valid subscript of a list of length [n]: a natural number below
    [n]. *)
Definition index_below (n : nat) (z : Z) : Prop :=
  exists j, z = Z.of_nat j /\ j < n.

End Invariants.
Export Invariants.

(* ================================================================== *)
(** ** Shapes of strings and of substring lists *)

Module Shapes.

(** Every character of the string is one of [bases]. *)
Definition over_bases (s : str) : Prop := Forall (fun b => In b bases) s.

(** The number of ["T"] in the string, wherever they stand. *)
Definition count_T (s : str) : nat :=
  length (filter (fun b => (b =? "T")%char) s).

(** A sequence as the generator and the mutator leave it: of length [L],
    accepted by the terminator check, over the alphabet. *)
Definition well_formed (L : nat) (s : str) : Prop :=
  length s = L /\ terminator_free s = true /\ over_bases s.

(** The number of positions at which two lists of substrings hold equal
    entries. *)
Definition agreements (l1 l2 : list str) : nat :=
  length (filter (fun p => str_eqb (fst p) (snd p)) (combine l1 l2)).

(** No character of [a] occurs in [b]. *)
Definition disjoint_characters (a b : str) : Prop :=
  forall c, In c a -> ~ In c b.

(** The entry of the result is the score of its own two strings. *)
Definition scored (e : evolved) : Prop :=
  score_fitness (snd (fst e)) (snd e) = inr (key e).

(** A sequence of length [L] over the alphabet with no run of four or
    more ["T"]. *)
Definition valid_sequence (L : nat) (s : str) : Prop :=
  length s = L /\ ~ has_terminator s /\ over_bases s.

(** Both strings of the pair satisfy [P]. *)
Definition both (P : str -> Prop) (p : strings) : Prop :=
  P (fst p) /\ P (snd p).

End Shapes.
Export Shapes.

(* ================================================================== *)
(** ** Sample inputs *)

Module Samples.

(** A source whose raw draws vary in their low and in their high bits. *)
Definition sample_source : source :=
  {| tape := fun n => ((N.of_nat n + 1) * 11400714819323198485 mod 2 ^ 64)%N;
     cursor := 0 |}.

Definition TTATT : str := ["T"; "T"; "A"; "T"; "T"]%char.
Definition TTATC : str := ["T"; "T"; "A"; "T"; "C"]%char.
Definition TTTTT : str := ["T"; "T"; "T"; "T"; "T"]%char.
Definition TTTAT : str := ["T"; "T"; "T"; "A"; "T"]%char.
Definition TTTAA : str := ["T"; "T"; "T"; "A"; "A"]%char.
Definition AAAAA : str := ["A"; "A"; "A"; "A"; "A"]%char.
Definition AAAAC : str := ["A"; "A"; "A"; "A"; "C"]%char.
Definition ACGT : str := ["A"; "C"; "G"; "T"]%char.
Definition ACTT : str := ["A"; "C"; "T"; "T"]%char.

Definition sample_population : list strings :=
  [(ACGT, ACTT); (AAAAA, AAAAC); (TTATT, TTATC); (ACTT, ACTT)].

Definition sample_fitness : list Q := [1 # 2; 1 # 4; 3 # 4; 1]%Q.

(** A source whose draws 4 and 5 are the indices 1 and 0. *)
Definition staged_source : source :=
  {| tape := fun n => match n with 4 => 1%N | _ => 0%N end; cursor := 0 |}.

End Samples.
Export Samples.

(* ================================================================== *)
(** * Properties *)

(** ** The monad and the library calls *)

Section MonadFacts.

Context {A B : Type}.

Lemma bind_ret (a : A) (k : A -> M B) (s : source) :
  bind (ret a) k s = k a s.
Proof. reflexivity. Qed.

Lemma bind_inr (c : M A) (k : A -> M B) (s s' : source) (a : A) :
  c s = inr (a, s') -> bind c k s = k a s'.
Proof. intros H. unfold bind. now rewrite H. Qed.

Lemma bind_inl (c : M A) (k : A -> M B) (s : source) (e : exn) :
  c s = inl e -> bind c k s = inl e.
Proof. intros H. unfold bind. now rewrite H. Qed.

Lemma lift_inr (r : exn + A) (a : A) (s : source) :
  r = inr a -> lift r s = inr (a, s).
Proof. now intros ->. Qed.

End MonadFacts.

Lemma advance_advance (a b : nat) (s : source) :
  advance a (advance b s) = advance (a + b) s.
Proof. unfold advance. cbn. f_equal. lia. Qed.

Lemma advance_0 (s : source) : advance 0 s = s.
Proof. now destruct s. Qed.

Lemma random_run (s : source) : random s = inr (random_value s, advance 1 s).
Proof. reflexivity. Qed.

Lemma random_value_range (s : source) :
  (0 <= random_value s)%Q /\ (random_value s < 1)%Q.
Proof.
  unfold random_value, Qle, Qlt. cbn [Qnum Qden].
  assert (H : (tape s (cursor s) mod 2 ^ 53 < 2 ^ 53)%N)
    by (apply N.mod_lt; discriminate).
  change (Z.pos (2 ^ 53)) with (Z.of_N (2 ^ 53)).
  generalize dependent (tape s (cursor s) mod 2 ^ 53)%N.
  generalize (2 ^ 53)%N. lia.
Qed.

Lemma Qltb_lt (x y : Q) : Qltb x y = true <-> (x < y)%Q.
Proof.
  unfold Qltb. rewrite negb_true_iff, <- not_true_iff_false, Qle_bool_iff.
  split; [apply Qnot_le_lt | apply Qlt_not_le].
Qed.

Lemma Qltb_ge (x y : Q) : Qltb x y = false <-> (y <= x)%Q.
Proof. unfold Qltb. now rewrite negb_false_iff, Qle_bool_iff. Qed.

Lemma random_not_below_0 (s : source) : Qltb (random_value s) 0 = false.
Proof. apply Qltb_ge, random_value_range. Qed.

Lemma choice_run {T : Type} (l : list T) (s : source) :
  l <> [] -> exists x, In x l /\ choice l s = inr (x, advance 1 s).
Proof.
  destruct l as [| d l]; [congruence | intros _].
  eexists. split; [| reflexivity].
  apply nth_In.
  set (n := length (d :: l)).
  assert (Hn : 0 < n) by (subst n; cbn [length]; lia).
  pose proof (N.mod_lt (tape s (cursor s)) (N.of_nat n)) as H.
  generalize dependent (tape s (cursor s) mod N.of_nat n)%N. lia.
Qed.

Lemma randint_value_lt (n : nat) (s : source) :
  0 < n -> randint_value n s < n.
Proof.
  intros Hn. unfold randint_value.
  pose proof (N.mod_lt (tape s (cursor s)) (N.of_nat n)) as H.
  generalize dependent (tape s (cursor s) mod N.of_nat n)%N. lia.
Qed.

Lemma randint_run (n : nat) (s : source) :
  0 < n ->
  randint 0 (Z.of_nat n - 1) s = inr (Z.of_nat (randint_value n s), advance 1 s).
Proof.
  intros Hn. unfold randint.
  replace (Z.of_nat n - 1 - 0 + 1)%Z with (Z.of_nat n) by lia.
  destruct (Z.leb_spec (Z.of_nat n) 0); [lia |].
  unfold bind, getrandbits, ret, advance. cbn [Nat.add].
  do 2 f_equal. unfold randint_value.
  now rewrite Z.add_0_l, N_nat_Z, N2Z.inj_mod, nat_N_Z.
Qed.

(* ================================================================== *)
(** ** Sequence codec *)

Section CodecFacts.

(** A string accepted by the executable check has no terminator. *)
Lemma terminator_free_from_sound (pre post : str) :
  forall run, terminator_free_from (pre ++ ["T"; "T"; "T"; "T"]%char ++ post) run = false.
Proof.
  induction pre as [| c pre IH]; intros run.
  - change (terminator_free_from ([] ++ ["T"; "T"; "T"; "T"]%char ++ post) run)
      with ((run + 1 <? 4) && ((run + 1 + 1 <? 4) && ((run + 1 + 1 + 1 <? 4) &&
            ((run + 1 + 1 + 1 + 1 <? 4) &&
             terminator_free_from post (run + 1 + 1 + 1 + 1))))).
    destruct (Nat.ltb_spec (run + 1 + 1 + 1 + 1) 4); [lia |].
    now rewrite !andb_false_r.
  - rewrite <- app_comm_cons. cbn [terminator_free_from].
    destruct (c =? "T")%char; [| apply IH].
    rewrite (IH (run + 1)). apply andb_false_r.
Qed.

Lemma terminator_free_sound (s : str) :
  terminator_free s = true -> ~ has_terminator s.
Proof.
  intros H (pre & post & ->). unfold terminator_free in H.
  now rewrite terminator_free_from_sound in H.
Qed.

(** One step of the counter: with at most three ["T"] counted, the base
    appended keeps the count at most three and extends any string that is
    terminator-free after the new count by one that is terminator-free
    after the old one. *)
Lemma count_base_step (b : ascii) (count : nat) :
  count <= 3 ->
  snd (count_base b count) <= 3 /\
  forall suf,
    (forall run, run <= snd (count_base b count) ->
                 terminator_free_from suf run = true) ->
    forall run, run <= count ->
                terminator_free_from (fst (count_base b count) :: suf) run = true.
Proof.
  intros Hc. unfold count_base.
  destruct (b =? "T")%char eqn:Eb.
  - destruct (Nat.eqb_spec (count + 1) 4) as [E4 | E4]; cbn [fst snd].
    + split; [lia |]. intros suf Hs run _. cbn. apply Hs. lia.
    + split; [lia |]. intros suf Hs run Hr.
      cbn [terminator_free_from]. rewrite Eb.
      rewrite Hs by lia. rewrite andb_true_r. apply Nat.ltb_lt. lia.
  - destruct (Nat.eqb_spec count 4) as [E4 | E4]; [lia |]. cbn [fst snd].
    split; [lia |]. intros suf Hs run _.
    cbn [terminator_free_from]. rewrite Eb. apply Hs. lia.
Qed.

Lemma generate_loop_run (x : nat) :
  forall new_bases count s,
    count <= 3 ->
    exists suf,
      generate_loop x new_bases count s = inr (new_bases ++ suf, advance x s) /\
      length suf = x /\
      forall run, run <= count -> terminator_free_from suf run = true.
Proof.
  induction x as [| x IH]; intros new_bases count s Hc.
  - exists []. cbn. rewrite app_nil_r, advance_0. auto.
  - cbn [generate_loop].
    destruct (choice_run bases s) as (b & _ & Hb); [discriminate |].
    rewrite (bind_inr _ _ _ _ _ Hb).
    destruct (count_base_step b count Hc) as [Hc' Hstep].
    destruct (count_base b count) as [b' count'] eqn:E. cbn [fst snd] in *.
    destruct (IH (new_bases ++ [b']) count' (advance 1 s) Hc')
      as (suf & Hrun & Hlen & Hfree).
    exists (b' :: suf). rewrite Hrun, <- app_assoc, advance_advance.
    replace (x + 1) with (S x) by lia.
    repeat split; cbn [length app]; auto.
Qed.

Lemma filter_bases_nonempty (base : ascii) :
  filter (fun b => negb (b =? base)%char) bases <> [].
Proof.
  unfold bases. cbn [filter].
  destruct (Ascii.eqb_spec "A"%char base) as [<- | _]; cbn; discriminate.
Qed.

Lemma mutate_base_run (base : ascii) (s : source) :
  exists b, b <> base /\ In b bases /\
            mutate_base base s = inr (b, advance 1 s).
Proof.
  destruct (choice_run _ s (filter_bases_nonempty base)) as (b & Hin & Hb).
  apply filter_In in Hin. destruct Hin as [Hin Hne].
  exists b. repeat split; auto.
  intros ->. now rewrite Ascii.eqb_refl in Hne.
Qed.

Lemma mutate_loop_run (original : str) (rate : Q) :
  forall new_bases count s,
    count <= 3 ->
    exists suf s',
      mutate_loop original rate new_bases count s = inr (new_bases ++ suf, s') /\
      length suf = length original /\
      forall run, run <= count -> terminator_free_from suf run = true.
Proof.
  induction original as [| base original IH]; intros new_bases count s Hc.
  - exists [], s. cbn. rewrite app_nil_r. auto.
  - cbn [mutate_loop]. rewrite (bind_inr _ _ _ _ _ (random_run s)).
    assert (Hnew : exists b s1,
               (if Qltb (random_value s) rate then mutate_base base
                else ret base) (advance 1 s) = inr (b, s1)).
    { destruct (Qltb (random_value s) rate).
      - destruct (mutate_base_run base (advance 1 s)) as (b & _ & _ & Hb).
        eauto.
      - eexists _, _. reflexivity. }
    destruct Hnew as (b & s1 & Hb). rewrite (bind_inr _ _ _ _ _ Hb).
    destruct (count_base_step b count Hc) as [Hc' Hstep].
    destruct (count_base b count) as [b' count'] eqn:E. cbn [fst snd] in *.
    destruct (IH (new_bases ++ [b']) count' s1 Hc')
      as (suf & s' & Hrun & Hlen & Hfree).
    exists (b' :: suf), s'. rewrite Hrun, <- app_assoc.
    repeat split; cbn [length app]; auto.
Qed.

Lemma rate_check (rate : Q) :
  (0 <= rate)%Q -> (rate <= 1)%Q -> Qltb rate 0 || Qltb 1 rate = false.
Proof.
  intros H0 H1. apply orb_false_iff. split; now apply Qltb_ge.
Qed.

Lemma mutate_string_run (original_string : str) (rate : Q) (s : source) :
  (0 <= rate)%Q -> (rate <= 1)%Q ->
  exists out s',
    mutate_string original_string rate s = inr (out, s') /\
    length out = length original_string /\
    terminator_free out = true.
Proof.
  intros H0 H1. unfold mutate_string. rewrite rate_check by assumption.
  destruct (mutate_loop_run original_string rate [] 0 s) as
    (suf & s' & Hrun & Hlen & Hfree); [lia |].
  exists suf, s'. split; [exact Hrun |]. split; [exact Hlen |].
  apply Hfree. lia.
Qed.

Lemma generate_string_run (length : nat) (s : source) :
  exists out,
    generate_string length s = inr (out, advance length s) /\
    List.length out = length /\
    terminator_free out = true.
Proof.
  destruct (generate_loop_run length [] 0 s) as (suf & Hrun & Hlen & Hfree);
    [lia |].
  exists suf. split; [exact Hrun |]. split; [exact Hlen |].
  apply Hfree. lia.
Qed.

(** With rate 0 no base is mutated: the pass returns the counting pass over
    the input and consumes one draw per base. *)
Lemma mutate_loop_rate_0 (original : str) :
  forall new_bases count s,
    mutate_loop original 0 new_bases count s =
    inr (new_bases ++ count_bases original count,
         advance (length original) s).
Proof.
  induction original as [| base original IH]; intros new_bases count s.
  - cbn. now rewrite app_nil_r, advance_0.
  - cbn [mutate_loop count_bases]. rewrite (bind_inr _ _ _ _ _ (random_run s)).
    rewrite random_not_below_0, bind_ret.
    destruct (count_base base count) as [b' count'].
    rewrite IH, <- app_assoc, advance_advance. cbn [length app].
    now replace (length original + 1) with (S (length original)) by lia.
Qed.

Lemma mutate_string_rate_0 (original_string : str) (s : source) :
  mutate_string original_string 0 s =
  inr (count_bases original_string 0, advance (length original_string) s).
Proof. unfold mutate_string. cbn [Qltb Qle_bool orb negb]. apply mutate_loop_rate_0. Qed.

End CodecFacts.

Section CodecClaims.

(** C1 (the code departs from the claim).  [mutate_string] with rate 0
    does not return every terminator-free input unchanged: the counter of
    the pass is never reset by a base other than ["T"], so the fourth ["T"]
    of the whole string is replaced.  On ["TTATT"], which has no run of
    four ["T"], rate 0 yields ["TTATC"] on every random source. *)
Theorem mutate_string_rate_0_rewrites_TTATT :
  forall rng : source,
    ~ has_terminator TTATT /\
    mutate_string TTATT 0 rng = inr (TTATC, advance 5 rng) /\
    TTATC <> TTATT.
Proof.
  intros rng. split; [| split].
  - apply terminator_free_sound. reflexivity.
  - rewrite mutate_string_rate_0. reflexivity.
  - discriminate.
Qed.

(** C2 (the code departs from the claim).  [remove_terminators] is not
    idempotent: it replaces every fourth ["T"] of the whole string, so a
    second pass counts the surviving ["T"] anew.  ["TTTTT"] becomes
    ["TTTAT"], and ["TTTAT"] becomes ["TTTAA"]. *)
Theorem remove_terminators_twice_TTTTT :
  remove_terminators TTTTT = TTTAT /\
  remove_terminators (remove_terminators TTTTT) = TTTAA /\
  remove_terminators (remove_terminators TTTTT) <> remove_terminators TTTTT.
Proof.
  split; [reflexivity | split; [reflexivity |]].
  discriminate.
Qed.

(** C3.  Whatever the length and the random draws, [generate_string]
    returns a string without a run of four or more ["T"]; whatever the
    input string, the rate in [0, 1] and the random draws, so does
    [mutate_string]. *)
Theorem generate_and_mutate_leave_no_terminator
  (length : nat) (original_string : str) (rate : Q) (rng : source) :
  (0 <= rate)%Q -> (rate <= 1)%Q ->
  (exists out rng',
      generate_string length rng = inr (out, rng') /\ ~ has_terminator out) /\
  (exists out rng',
      mutate_string original_string rate rng = inr (out, rng') /\
      ~ has_terminator out).
Proof.
  intros H0 H1. split.
  - destruct (generate_string_run length rng) as (out & Hrun & _ & Hfree).
    exists out, (advance length rng).
    split; [exact Hrun | now apply terminator_free_sound].
  - destruct (mutate_string_run original_string rate rng H0 H1)
      as (out & rng' & Hrun & _ & Hfree).
    exists out, rng'.
    split; [exact Hrun | now apply terminator_free_sound].
Qed.

Lemma generate_and_mutate_leave_no_terminator_witness :
  ((0 <= 1 # 2)%Q /\ (1 # 2 <= 1)%Q) /\
  (exists out rng',
      generate_string 12 sample_source = inr (out, rng') /\
      ~ has_terminator out) /\
  (exists out rng',
      mutate_string TTTTT (1 # 2) sample_source = inr (out, rng') /\
      ~ has_terminator out).
Proof.
  split.
  - split; discriminate.
  - apply (generate_and_mutate_leave_no_terminator 12 TTTTT (1 # 2)
             sample_source); discriminate.
Defined.

End CodecClaims.

(* ================================================================== *)
(** ** Fitness evaluator *)

Section FitnessFacts.

Lemma str_eqb_refl (a : str) : str_eqb a a = true.
Proof.
  induction a as [| x a IH]; [reflexivity |].
  cbn. now rewrite Ascii.eqb_refl.
Qed.

Lemma str_eqb_sym (a b : str) : str_eqb a b = str_eqb b a.
Proof.
  revert b. induction a as [| x a IH]; intros [| y b]; try reflexivity.
  cbn. now rewrite Ascii.eqb_sym, IH.
Qed.

Lemma fold_left_ext_on {X Y : Type} (f g : X -> Y -> X) (l : list Y) :
  (forall a y, In y l -> f a y = g a y) ->
  forall a, fold_left f l a = fold_left g l a.
Proof.
  induction l as [| y l IH]; intros H a; [reflexivity |].
  cbn. rewrite H by now left. apply IH. intros a' y' Hy. apply H. now right.
Qed.

(** An index inside both the list and the bounds of a slice names an
    element of the slice. *)
Lemma slice_In {X : Type} (l : list X) (lo hi i : nat) (d : X) :
  lo <= i -> i < hi -> i < length l -> In (nth i l d) (slice l lo hi).
Proof.
  intros Hlo Hhi Hlen. unfold slice.
  replace (nth i l d) with (nth (i - lo) (firstn (hi - lo) (skipn lo l)) d).
  - apply nth_In. rewrite length_firstn, length_skipn. lia.
  - rewrite nth_firstn.
    destruct (Nat.ltb_spec (i - lo) (hi - lo)); [| lia].
    rewrite nth_skipn. f_equal. lia.
Qed.

Lemma length_get_substrings (s : str) (k : nat) :
  length (get_substrings s k) = length s + 1 - k.
Proof. unfold get_substrings. now rewrite length_map, length_seq. Qed.

(** Every index of the loop adds at most one to the score. *)
Lemma score_at_le (s1 s2 : list str) (w h i : nat) :
  h <= score_at s1 s2 w h i <= h + 1.
Proof.
  unfold score_at.
  destruct (existsb _ _); lia.
Qed.

Lemma score_fold_le (s1 s2 : list str) (w : nat) (l : list nat) :
  forall h, fold_left (score_at s1 s2 w) l h <= h + length l.
Proof.
  induction l as [| i l IH]; intros h; cbn [fold_left length]; [lia |].
  specialize (IH (score_at s1 s2 w h i)).
  pose proof (score_at_le s1 s2 w h i). lia.
Qed.

Lemma score_substrings_le (s1 s2 : list str) (w : nat) :
  score_substrings s1 s2 w <= length s1.
Proof.
  unfold score_substrings.
  pose proof (score_fold_le s1 s2 w (seq 0 (length s1)) 0) as H.
  now rewrite length_seq in H.
Qed.

(** Compared with itself, a list scores at every index: the window of
    index [i] contains position [i]. *)
Lemma score_at_self (s : list str) (w h i : nat) :
  i < length s -> score_at s s w h i = h + 1.
Proof.
  intros Hi. unfold score_at.
  replace (existsb _ _) with true; [reflexivity |].
  symmetry. apply existsb_exists. exists (nth i s []).
  split; [| apply str_eqb_refl].
  apply slice_In; [| | exact Hi].
  - destruct (Nat.leb_spec w i); lia.
  - destruct (Nat.ltb_spec w (length s - i)); lia.
Qed.

Lemma score_fold_self (s : list str) (w : nat) (l : list nat) :
  (forall i, In i l -> i < length s) ->
  forall h, fold_left (score_at s s w) l h = h + length l.
Proof.
  induction l as [| i l IH]; intros Hl h; cbn [fold_left length]; [lia |].
  rewrite score_at_self by (apply Hl; now left).
  rewrite IH by (intros j Hj; apply Hl; now right). lia.
Qed.

Lemma score_substrings_self (s : list str) (w : nat) :
  score_substrings s s w = length s.
Proof.
  unfold score_substrings. rewrite score_fold_self.
  - now rewrite length_seq.
  - intros i Hi. apply in_seq in Hi. lia.
Qed.

Lemma list_sum_cons (x : nat) (l : list nat) :
  list_sum (x :: l) = x + list_sum l.
Proof. reflexivity. Qed.

(** The sum of the list lengths [L - k + 1] over the substring lengths
    [ks]: what [max_score] accumulates. *)
Lemma fitness_fold_max (s1 s2 : str) (ks : list nat) :
  forall acc,
    snd (fold_left (fitness_at s1 s2) ks acc) =
    snd acc + list_sum (map (fun k => length s1 + 1 - k) ks).
Proof.
  induction ks as [| k ks IH]; intros [score max_score];
    cbn [fold_left map]; [cbn; lia |]; rewrite list_sum_cons.
  rewrite IH. unfold fitness_at. cbn [snd].
  rewrite score_substrings_self, repeat_length. lia.
Qed.

Lemma fitness_fold_score_le (s1 s2 : str) (ks : list nat) :
  forall acc,
    fst (fold_left (fitness_at s1 s2) ks acc) <=
    fst acc + list_sum (map (fun k => length s1 + 1 - k) ks).
Proof.
  induction ks as [| k ks IH]; intros [score max_score];
    cbn [fold_left map]; [cbn; lia |]; rewrite list_sum_cons.
  etransitivity; [apply IH |]. unfold fitness_at. cbn [fst].
  pose proof (score_substrings_le (get_substrings s1 k) (get_substrings s2 k)
                (get_sliding_window (dots k))) as H.
  rewrite length_get_substrings in H. lia.
Qed.

Lemma fitness_fold_score_self (s : str) (ks : list nat) :
  forall acc,
    fst (fold_left (fitness_at s s) ks acc) =
    fst acc + list_sum (map (fun k => length s + 1 - k) ks).
Proof.
  induction ks as [| k ks IH]; intros [score max_score];
    cbn [fold_left map]; [cbn; lia |]; rewrite list_sum_cons.
  rewrite IH. unfold fitness_at. cbn [fst].
  rewrite score_substrings_self, length_get_substrings. lia.
Qed.

Lemma max_total_pos (L : nat) : 2 <= L -> 0 < max_total L.
Proof.
  intros HL. unfold max_total.
  destruct L as [| [| L]]; [lia | lia |].
  cbn [Nat.sub seq map]. rewrite list_sum_cons. lia.
Qed.

Lemma fitness_sums_max (s1 s2 : str) :
  snd (fitness_sums s1 s2) = max_total (length s1).
Proof. unfold fitness_sums. now rewrite fitness_fold_max. Qed.

Lemma fitness_sums_score_le (s1 s2 : str) :
  fst (fitness_sums s1 s2) <= max_total (length s1).
Proof.
  unfold fitness_sums.
  now rewrite fitness_fold_score_le.
Qed.

Lemma fitness_sums_self (s : str) :
  fitness_sums s s = (max_total (length s), max_total (length s)).
Proof.
  rewrite (surjective_pairing (fitness_sums s s)), fitness_sums_max.
  unfold fitness_sums. now rewrite fitness_fold_score_self.
Qed.

End FitnessFacts.

Section FitnessQuotient.

Lemma Z_pos_of_nat (m : nat) : 0 < m -> Z.pos (Pos.of_nat m) = Z.of_nat m.
Proof.
  intros Hm. rewrite <- positive_nat_Z, Nat2Pos.id by lia. reflexivity.
Qed.

Lemma quotient_self (m : nat) :
  0 < m -> Qred (Z.of_nat m # Pos.of_nat m) = 1%Q.
Proof.
  intros Hm. change 1%Q with (Qred 1). apply Qred_complete.
  unfold Qeq. cbn [Qnum Qden]. rewrite Z_pos_of_nat by exact Hm. lia.
Qed.

Lemma quotient_range (a m : nat) :
  0 < m -> a <= m ->
  (0 <= Qred (Z.of_nat a # Pos.of_nat m))%Q /\
  (Qred (Z.of_nat a # Pos.of_nat m) <= 1)%Q.
Proof.
  intros Hm Ha. rewrite Qred_correct. unfold Qle. cbn [Qnum Qden].
  rewrite Z_pos_of_nat by exact Hm. lia.
Qed.

(** On strings of equal length at least 2, [score_fitness] returns the
    quotient of the two sums. *)
Lemma score_fitness_run (a b : str) :
  length a = length b -> 2 <= length a ->
  score_fitness a b =
  inr (Qred (Z.of_nat (fst (fitness_sums a b))
             # Pos.of_nat (max_total (length a)))).
Proof.
  intros Hlen HL. unfold score_fitness.
  rewrite Hlen, Nat.eqb_refl. cbn [negb]. rewrite <- Hlen.
  pose proof (fitness_sums_max a b) as Hmax.
  destruct (fitness_sums a b) as [score max_score]. cbn [fst snd] in *.
  subst max_score.
  pose proof (max_total_pos (length a) HL) as Hpos.
  destruct (Nat.eqb_spec (max_total (length a)) 0); [lia | reflexivity].
Qed.

(** Whatever the strings, a value [score_fitness] returns lies in [0, 1]. *)
Lemma score_fitness_range (a b : str) (q : Q) :
  score_fitness a b = inr q -> (0 <= q)%Q /\ (q <= 1)%Q.
Proof.
  unfold score_fitness.
  destruct (length a =? length b); cbn [negb]; [| discriminate].
  pose proof (fitness_sums_max a b) as Hmax.
  pose proof (fitness_sums_score_le a b) as Hle.
  destruct (fitness_sums a b) as [score max_score]. cbn [fst snd] in *.
  destruct (Nat.eqb_spec max_score 0); [discriminate |].
  intros H. inversion H. apply quotient_range; lia.
Qed.

(** With a sliding window of 0 the slice at index [i] is the single
    element at [i]. *)
Lemma slice_one {X : Type} (l : list X) (i : nat) (d : X) :
  i < length l -> slice l (i - 0) (i + 0 + 1) = [nth i l d].
Proof.
  intros Hi. unfold slice.
  replace (i + 0 + 1 - (i - 0)) with 1 by lia.
  replace (i - 0) with i by lia.
  pose proof (length_skipn i l) as Hlen.
  pose proof (nth_skipn i l 0 d) as Hnth.
  destruct (skipn i l) as [| x rest]; cbn [length] in Hlen; [lia |].
  cbn in Hnth. rewrite Nat.add_0_r in Hnth. now subst x.
Qed.

Lemma score_at_window_0_sym (s1 s2 : list str) (h i : nat) :
  length s1 = length s2 -> i < length s1 ->
  score_at s1 s2 0 h i = score_at s2 s1 0 h i.
Proof.
  intros Hlen Hi. unfold score_at. rewrite <- Hlen.
  cbn [Nat.leb].
  destruct (Nat.ltb_spec 0 (length s1 - i)); [| lia].
  rewrite (slice_one s2 i []), (slice_one s1 i []) by lia.
  cbn [existsb]. now rewrite str_eqb_sym.
Qed.

Lemma score_substrings_window_0_sym (s1 s2 : list str) :
  length s1 = length s2 ->
  score_substrings s1 s2 0 = score_substrings s2 s1 0.
Proof.
  intros Hlen. unfold score_substrings. rewrite <- Hlen.
  apply fold_left_ext_on. intros h i Hi. apply in_seq in Hi.
  apply score_at_window_0_sym; [exact Hlen | lia].
Qed.

Lemma get_sliding_window_small (k : nat) :
  k <= 3 -> get_sliding_window (dots k) = 0.
Proof.
  intros Hk. unfold get_sliding_window, dots. rewrite repeat_length.
  destruct k as [| [| [| [| k]]]]; try reflexivity. lia.
Qed.

Lemma fitness_at_small_sym (a b : str) (acc : nat * nat) (k : nat) :
  length a = length b -> k <= 3 ->
  fitness_at a b acc k = fitness_at b a acc k.
Proof.
  intros Hlen Hk. unfold fitness_at. destruct acc as [score max_score].
  rewrite get_sliding_window_small by exact Hk.
  rewrite (score_substrings_window_0_sym (get_substrings a k)
             (get_substrings b k))
    by (rewrite !length_get_substrings; now rewrite Hlen).
  now rewrite Hlen.
Qed.

Lemma fitness_sums_small_sym (a b : str) :
  length a = length b -> length a <= 4 ->
  fitness_sums a b = fitness_sums b a.
Proof.
  intros Hlen HL. unfold fitness_sums. rewrite <- Hlen.
  apply fold_left_ext_on. intros acc k Hk. apply in_seq in Hk.
  apply fitness_at_small_sym; [exact Hlen | lia].
Qed.

End FitnessQuotient.

Section FitnessClaims.

(** C4.  A string of length at least 2 compared with itself has fitness
    exactly 1: every substring matches inside its own window, so the score
    equals the maximum score. *)
Theorem score_fitness_self (s : str) :
  2 <= length s -> score_fitness s s = inr 1%Q.
Proof.
  intros HL. rewrite score_fitness_run by auto.
  rewrite fitness_sums_self. cbn [fst].
  f_equal. apply quotient_self. now apply max_total_pos.
Qed.

Lemma score_fitness_self_witness :
  2 <= length ACGT /\ score_fitness ACGT ACGT = inr 1%Q.
Proof.
  split.
  - cbn. lia.
  - apply (score_fitness_self ACGT). cbn. lia.
Defined.

(** C5, as stated, fails: on ["AAAAA"] and ["AAAAC"] the two orders give
    11/14 and 10/14.  At substring length 4 the window has radius 1, and
    both substrings of ["AAAAA"] occur in the window of ["AAAAC"], while
    only one substring of ["AAAAC"] occurs in ["AAAAA"]. *)
Lemma score_fitness_not_symmetric :
  ~ (forall a b : str,
        length a = length b -> 2 <= length a ->
        score_fitness a b = score_fitness b a).
Proof.
  intros H. specialize (H AAAAA AAAAC eq_refl).
  assert (HL : 2 <= length AAAAA) by (cbn; lia).
  specialize (H HL). vm_compute in H. discriminate.
Qed.

(** C5, amended.  On equal-length strings of length 2 to 4 every sliding
    window has radius 0, the match is position by position, and
    [score_fitness] is symmetric. *)
Theorem score_fitness_symmetric_up_to_4 (a b : str) :
  length a = length b -> 2 <= length a -> length a <= 4 ->
  exists q, score_fitness a b = inr q /\ score_fitness b a = inr q.
Proof.
  intros Hlen HL H4. eexists. split.
  - apply score_fitness_run; assumption.
  - rewrite score_fitness_run by lia.
    now rewrite (fitness_sums_small_sym a b Hlen H4), Hlen.
Qed.

Lemma score_fitness_symmetric_up_to_4_witness :
  (length ACGT = length ACTT /\ 2 <= length ACGT /\ length ACGT <= 4) /\
  exists q, score_fitness ACGT ACTT = inr q /\ score_fitness ACTT ACGT = inr q.
Proof.
  split.
  - cbn. lia.
  - apply (score_fitness_symmetric_up_to_4 ACGT ACTT); cbn; lia.
Defined.

(** C6.  On equal-length strings of length at least 2 the accumulated
    [max_score] is positive, the division is defined, and the fitness lies
    in [0, 1]. *)
Theorem score_fitness_defined_in_unit_interval (a b : str) :
  length a = length b -> 2 <= length a ->
  0 < snd (fitness_sums a b) /\
  exists q, score_fitness a b = inr q /\ (0 <= q)%Q /\ (q <= 1)%Q.
Proof.
  intros Hlen HL. split.
  - rewrite fitness_sums_max. now apply max_total_pos.
  - eexists. split; [apply score_fitness_run; assumption |].
    apply quotient_range;
      [now apply max_total_pos | apply fitness_sums_score_le].
Qed.

Lemma score_fitness_defined_in_unit_interval_witness :
  (length AAAAA = length AAAAC /\ 2 <= length AAAAA) /\
  0 < snd (fitness_sums AAAAA AAAAC) /\
  exists q, score_fitness AAAAA AAAAC = inr q /\ (0 <= q)%Q /\ (q <= 1)%Q.
Proof.
  split.
  - cbn. lia.
  - apply (score_fitness_defined_in_unit_interval AAAAA AAAAC); cbn; lia.
Defined.

End FitnessClaims.

(* ================================================================== *)
(** ** Tournament selection *)

Section TournamentFacts.

Lemma getitem_nth_error {X : Type} (l : list X) (i : nat) (x : X) :
  nth_error l i = Some x -> getitem l (Z.of_nat i) = inr x.
Proof.
  intros H. unfold getitem.
  replace (Z.of_nat i <? 0)%Z with false by (symmetry; apply Z.ltb_ge; lia).
  cbv zeta.
  replace (Z.of_nat i <? 0)%Z with false by (symmetry; apply Z.ltb_ge; lia).
  now rewrite Nat2Z.id, H.
Qed.

Lemma nth_error_nth_lt {X : Type} (l : list X) (i : nat) (d : X) :
  i < length l -> nth_error l i = Some (nth i l d).
Proof. intros H. now apply nth_error_nth'. Qed.

Lemma find_last {X : Type} (f : X -> bool) (l : list X) (x : X) :
  find f (l ++ [x]) =
  match find f l with
  | Some y => Some y
  | None => if f x then Some x else None
  end.
Proof.
  induction l as [| y l IH]; [reflexivity |].
  cbn [app find]. now destruct (f y).
Qed.

Lemma draws_S (n t : nat) (rng : source) :
  draws n (S t) rng = randint_value n rng :: draws n t (advance 1 rng).
Proof.
  unfold draws. cbn [seq map]. rewrite advance_0. f_equal.
  rewrite <- seq_shift, map_map. apply map_ext.
  intros x. rewrite advance_advance. do 2 f_equal. lia.
Qed.

Lemma draws_lt (n t : nat) (rng : source) (j : nat) :
  0 < n -> In j (draws n t rng) -> j < n.
Proof.
  intros Hn Hj. unfold draws in Hj. apply in_map_iff in Hj.
  destruct Hj as (x & <- & _). now apply randint_value_lt.
Qed.

(** A tournament of [t] draws consumes [t] draws and ends on the last
    drawn individual that beats [i], or on the initial [best_suitor]. *)
Lemma tournament_run (population : list strings) (fitness : list Q) (i : nat) :
  length fitness = length population -> i < length population ->
  forall t best_suitor rng,
  exists b,
    tournament t population fitness i best_suitor rng
    = inr (b, advance t rng) /\
    match last_better fitness i (draws (length population) t rng) with
    | Some j => nth_error population j = Some b
    | None => b = best_suitor
    end.
Proof.
  intros Hlen Hi. induction t as [| t IH]; intros best_suitor rng.
  - exists best_suitor. cbn. now rewrite advance_0.
  - assert (Hn : 0 < length population) by lia.
    cbn [tournament].
    rewrite (bind_inr _ _ _ _ _ (randint_run _ rng Hn)).
    set (j := randint_value (length population) rng).
    assert (Hj : j < length population) by now apply randint_value_lt.
    rewrite (bind_inr _ _ _ _ _
               (lift_inr _ _ _ (getitem_nth_error fitness j _
                  (nth_error_nth_lt fitness j 0%Q ltac:(lia))))).
    rewrite (bind_inr _ _ _ _ _
               (lift_inr _ _ _ (getitem_nth_error fitness i _
                  (nth_error_nth_lt fitness i 0%Q ltac:(lia))))).
    rewrite draws_S. fold j. unfold last_better. cbn [rev].
    rewrite find_last. fold (last_better fitness i
                               (draws (length population) t (advance 1 rng))).
    unfold beats.
    destruct (Qltb (nth j fitness 0%Q) (nth i fitness 0%Q)).
    + pose proof (nth_error_nth_lt population j best_suitor Hj) as Hp.
      rewrite (bind_inr _ _ _ _ _
                 (lift_inr _ _ _ (getitem_nth_error population j _ Hp))).
      destruct (IH (nth j population best_suitor) (advance 1 rng))
        as (b & Hrun & Hb).
      exists b. rewrite Hrun, advance_advance.
      replace (t + 1) with (S t) by lia. split; [reflexivity |].
      destruct (last_better _ _ _); [exact Hb | now subst b].
    + destruct (IH best_suitor (advance 1 rng)) as (b & Hrun & Hb).
      exists b. rewrite Hrun, advance_advance.
      replace (t + 1) with (S t) by lia. split; [reflexivity |].
      destruct (last_better _ _ _); exact Hb.
Qed.

(** The suitor loop from index [length pre] on: it appends one suitor per
    individual left, each chosen by its own tournament. *)
Lemma suitors_loop_run (fitness : list Q) (t : nat) (rest : list strings) :
  forall pre suitors rng,
    length fitness = length (pre ++ rest) ->
    exists new,
      suitors_loop rest (length pre) (pre ++ rest) fitness t suitors rng
      = inr (suitors ++ new, advance (length rest * t) rng) /\
      length new = length rest /\
      forall k, k < length rest ->
        nth_error new k =
        chosen_suitor (pre ++ rest) fitness (length pre + k)
          (draws (length (pre ++ rest)) t (advance (k * t) rng)).
Proof.
  induction rest as [| s rest IH]; intros pre suitors rng Hlen.
  - exists []. cbn. rewrite app_nil_r, advance_0.
    repeat split. intros k Hk. lia.
  - cbn [suitors_loop].
    assert (Hi : length pre < length (pre ++ s :: rest))
      by (rewrite length_app; cbn [length]; lia).
    destruct (tournament_run (pre ++ s :: rest) fitness (length pre) Hlen Hi
                t s rng) as (b & Hrun & Hb).
    rewrite (bind_inr _ _ _ _ _ Hrun).
    assert (Hs : nth_error (pre ++ s :: rest) (length pre) = Some s)
      by (rewrite nth_error_app2, Nat.sub_diag by lia; reflexivity).
    assert (Heq : pre ++ s :: rest = (pre ++ [s]) ++ rest)
      by (now rewrite <- app_assoc).
    assert (Hpre : S (length pre) = length (pre ++ [s]))
      by (rewrite length_app; cbn [length]; lia).
    rewrite Heq in Hlen |- *. rewrite Hpre.
    destruct (IH (pre ++ [s]) (suitors ++ [b]) (advance t rng) Hlen)
      as (new & Hloop & Hnew & Hchosen).
    exists (b :: new). rewrite Hloop, <- app_assoc, advance_advance.
    split; [do 2 f_equal; cbn [length]; f_equal; lia |].
    split; [cbn [length]; lia |].
    intros [| k] Hk.
    + cbn [nth_error Nat.mul]. rewrite advance_0, Nat.add_0_r.
      unfold chosen_suitor. rewrite <- Heq.
      destruct (last_better _ _ _); [now rewrite Hb |].
      now rewrite Hs, Hb.
    + cbn [nth_error length] in *. rewrite Hchosen by lia.
      rewrite advance_advance. rewrite <- Hpre.
      replace (S (length pre) + k) with (length pre + S k) by lia.
      now replace (k * t + t) with (S k * t) by lia.
Qed.

Lemma select_suitors_run (population : list strings) (fitness : list Q)
  (t : nat) (rng : source) :
  length fitness = length population ->
  exists suitors,
    select_suitors population fitness t rng
    = inr (suitors, advance (length population * t) rng) /\
    length suitors = length population /\
    forall i, i < length population ->
      nth_error suitors i =
      chosen_suitor population fitness i
        (tournament_draws (length population) t i rng).
Proof.
  intros Hlen.
  destruct (suitors_loop_run fitness t population [] [] rng Hlen)
    as (new & Hrun & Hnew & Hchosen).
  exists new. repeat split; assumption.
Qed.

End TournamentFacts.

Section TournamentClaims.

Lemma find_rev_Some {X : Type} (f : X -> bool) (l : list X) (x : X) :
  find f (rev l) = Some x ->
  exists before after,
    l = before ++ x :: after /\ f x = true /\
    forall y, In y after -> f y = false.
Proof.
  induction l as [| a l IH]; [discriminate |].
  cbn [rev]. rewrite find_last.
  destruct (find f (rev l)) as [y |] eqn:E.
  - intros H. inversion H. subst y.
    destruct (IH eq_refl) as (before & after & -> & Hx & Hafter).
    now exists (a :: before), after.
  - destruct (f a) eqn:Ea; [| discriminate].
    intros H. inversion H. subst a.
    exists [], l. repeat split; auto.
    intros y Hy. apply (find_none _ _ E). now apply in_rev in Hy.
Qed.

Lemma find_rev_None {X : Type} (f : X -> bool) (l : list X) :
  find f (rev l) = None -> forall y, In y l -> f y = false.
Proof.
  intros E y Hy. apply (find_none _ _ E). now apply in_rev in Hy.
Qed.

(** The executable choice agrees with the specification's wording. *)
Lemma chosen_suitor_spec (population : list strings) (fitness : list Q)
  (i : nat) (drawn : list nat) (b : strings) :
  chosen_suitor population fitness i drawn = Some b ->
  is_suitor_of population fitness i drawn b.
Proof.
  unfold chosen_suitor, last_better.
  destruct (find _ (rev drawn)) as [j |] eqn:E; intros Hb.
  - left. destruct (find_rev_Some _ _ _ E) as (before & after & H1 & H2 & H3).
    now exists before, j, after.
  - right. split; [exact (find_rev_None _ _ E) | exact Hb].
Qed.

Lemma chosen_suitor_Some (population : list strings) (fitness : list Q)
  (i : nat) (drawn : list nat) :
  i < length population ->
  (forall j, In j drawn -> j < length population) ->
  exists b, chosen_suitor population fitness i drawn = Some b.
Proof.
  intros Hi Hdrawn. unfold chosen_suitor, last_better.
  destruct (find _ (rev drawn)) as [j |] eqn:E.
  - apply find_some in E. destruct E as [Hj _]. apply in_rev in Hj.
    destruct (nth_error population j) eqn:En; [eauto |].
    apply nth_error_None in En. specialize (Hdrawn j Hj). lia.
  - destruct (nth_error population i) eqn:En; [eauto |].
    apply nth_error_None in En. lia.
Qed.

Lemma chosen_suitor_In (population : list strings) (fitness : list Q)
  (i : nat) (drawn : list nat) (b : strings) :
  chosen_suitor population fitness i drawn = Some b -> In b population.
Proof.
  unfold chosen_suitor.
  destruct (last_better _ _ _); apply nth_error_In.
Qed.

(** C7.  The suitor loop returns as many suitors as there are individuals,
    and the suitor of individual [i] is [population[j]] for the last index
    [j] drawn in its tournament with [fitness[j] < fitness[i]], or
    [population[i]] itself when no drawn index qualifies. *)
Theorem select_suitors_last_better (population : list strings)
  (fitness : list Q) (tournament_size : nat) (rng : source) :
  length fitness = length population ->
  exists suitors rng',
    select_suitors population fitness tournament_size rng
    = inr (suitors, rng') /\
    length suitors = length population /\
    forall i, i < length population ->
      exists b,
        nth_error suitors i = Some b /\
        is_suitor_of population fitness i
          (tournament_draws (length population) tournament_size i rng) b.
Proof.
  intros Hlen.
  destruct (select_suitors_run population fitness tournament_size rng Hlen)
    as (suitors & Hrun & Hsize & Hchosen).
  exists suitors, (advance (length population * tournament_size) rng).
  split; [exact Hrun |]. split; [exact Hsize |].
  intros i Hi. specialize (Hchosen i Hi).
  destruct (chosen_suitor_Some population fitness i
              (tournament_draws (length population) tournament_size i rng) Hi)
    as (b & Hb).
  - intros j Hj. eapply draws_lt; [| exact Hj]. lia.
  - exists b. split; [congruence |]. now apply chosen_suitor_spec.
Qed.

Lemma select_suitors_last_better_witness :
  length sample_fitness = length sample_population /\
  exists suitors rng',
    select_suitors sample_population sample_fitness 3 sample_source
    = inr (suitors, rng') /\
    length suitors = length sample_population /\
    forall i, i < length sample_population ->
      exists b,
        nth_error suitors i = Some b /\
        is_suitor_of sample_population sample_fitness i
          (tournament_draws (length sample_population) 3 i sample_source) b.
Proof.
  split.
  - reflexivity.
  - apply (select_suitors_last_better sample_population sample_fitness 3
             sample_source).
    reflexivity.
Defined.

(** The suitor need not be the fittest of the draws: individual 2 (fitness
    3/4) draws index 1 (fitness 1/4) and then index 0 (fitness 1/2), and
    its suitor is [population[0]]. *)
Example suitor_is_last_not_fittest :
  tournament_draws 4 2 2 staged_source = [1; 0] /\
  exists suitors rng',
    select_suitors sample_population sample_fitness 2 staged_source
    = inr (suitors, rng') /\
    nth_error suitors 2 = nth_error sample_population 0.
Proof.
  split; [reflexivity |].
  eexists _, _. split; reflexivity.
Qed.

End TournamentClaims.

(* ================================================================== *)
(** ** Outcomes of computations *)

Section OutcomeFacts.

Context {A B : Type}.

Lemma outcome_bind (allowed : exn -> Prop) (P : A -> Prop) (Q : B -> Prop)
  (c : M A) (k : A -> M B) (s : source) :
  outcome allowed P (c s) ->
  (forall a s', c s = inr (a, s') -> P a -> outcome allowed Q (k a s')) ->
  outcome allowed Q (bind c k s).
Proof.
  unfold bind. destruct (c s) as [e | [a s']]; cbn [outcome]; auto.
Qed.

Lemma outcome_weaken (allowed allowed' : exn -> Prop) (P P' : A -> Prop)
  (r : exn + (A * source)) :
  (forall e, allowed e -> allowed' e) ->
  (forall a, P a -> P' a) ->
  outcome allowed P r -> outcome allowed' P' r.
Proof. destruct r as [e | [a s]]; cbn [outcome]; auto. Qed.

Lemma outcome_value (allowed : exn -> Prop) (P : A -> Prop)
  (r : exn + (A * source)) (a : A) (s : source) :
  outcome allowed P r -> r = inr (a, s) -> P a.
Proof. now intros H ->. Qed.

(** A computation with no allowed exception returns. *)
Lemma outcome_returns (allowed : exn -> Prop) (P : A -> Prop)
  (r : exn + (A * source)) :
  (forall e, ~ allowed e) ->
  outcome allowed P r -> exists a s, r = inr (a, s) /\ P a.
Proof.
  intros Hno. destruct r as [e | [a s]]; cbn [outcome]; intros H.
  - now apply Hno in H.
  - eauto.
Qed.

End OutcomeFacts.

(* ================================================================== *)
(** ** Population, mating and the generation driver *)

Section DriverFacts.

Lemma population_loop_run (L i : nat) :
  forall population rng,
  exists new,
    population_loop L i population rng
    = inr (population ++ new, advance (i * (L + L)) rng) /\
    length new = i /\
    Forall (pair_length L) new.
Proof.
  induction i as [| i IH]; intros population rng.
  - exists []. cbn. now rewrite app_nil_r, advance_0.
  - cbn [population_loop].
    destruct (generate_string_run L rng) as (s0 & H0 & Hl0 & _).
    destruct (generate_string_run L (advance L rng)) as (s1 & H1 & Hl1 & _).
    rewrite (bind_inr _ _ _ _ _ H0), (bind_inr _ _ _ _ _ H1).
    destruct (IH (population ++ [(s0, s1)]) (advance L (advance L rng)))
      as (new & Hrun & Hlen & Hwf).
    exists ((s0, s1) :: new). rewrite Hrun, <- app_assoc, !advance_advance.
    split; [do 2 f_equal; f_equal; lia |].
    split; [cbn [length]; lia |].
    constructor; [now split | exact Hwf].
Qed.

Lemma generate_population_run (L size : nat) (rng : source) :
  exists population rng',
    generate_population L size rng = inr (population, rng') /\
    length population = size /\
    Forall (pair_length L) population.
Proof.
  destruct (population_loop_run L size [] rng) as (new & Hrun & Hlen & Hwf).
  now exists new, (advance (size * (L + L)) rng).
Qed.

Lemma score_fitness_error (a b : str) (e : exn) :
  length a = length b -> score_fitness a b = inl e ->
  e = ZeroDivisionError /\ length a < 2.
Proof.
  intros Hlen He.
  destruct (Nat.lt_ge_cases (length a) 2) as [Hlt | Hge].
  - split; [| exact Hlt]. unfold score_fitness in He.
    rewrite Hlen, Nat.eqb_refl in He. cbn [negb] in He.
    destruct (fitness_sums a b) as [score max_score].
    destruct (max_score =? 0); [congruence | discriminate].
  - rewrite score_fitness_run in He by assumption. discriminate.
Qed.

(** The fitness landscape of scorable pairs: one score per pair, each in
    [0, 1]. *)
Lemma fitness_loop_run (population : list strings) :
  Forall scorable population ->
  forall fitness,
  exists new,
    fitness_loop population fitness = inr (fitness ++ new) /\
    length new = length population /\
    Forall unit_interval new.
Proof.
  induction 1 as [| p population [Hp1 Hp2] _ IH]; intros fitness.
  - exists []. cbn. now rewrite app_nil_r.
  - cbn [fitness_loop].
    pose proof (score_fitness_run _ _ Hp1 Hp2) as Hq.
    pose proof (score_fitness_range _ _ _ Hq) as Hrange.
    rewrite Hq. set (q := Qred _) in *. destruct (IH (fitness ++ [q])) as (new & Hrun & Hlen & Hall).
    exists (q :: new). rewrite Hrun, <- app_assoc.
    split; [reflexivity |]. split; [cbn [length]; lia |].
    constructor; assumption.
Qed.

(** Whatever the pairs, a landscape that is returned has one score per
    pair, each in [0, 1]. *)
Lemma fitness_loop_inv (population : list strings) :
  forall fitness result,
    fitness_loop population fitness = inr result ->
    exists new,
      result = fitness ++ new /\
      length new = length population /\
      Forall unit_interval new.
Proof.
  induction population as [| p population IH]; intros fitness result H.
  - exists []. cbn in H. inversion H. now rewrite app_nil_r.
  - cbn [fitness_loop] in H.
    destruct (score_fitness (fst p) (snd p)) as [e | q] eqn:Eq;
      [discriminate |].
    destruct (IH _ _ H) as (new & -> & Hlen & Hall).
    exists (q :: new). rewrite <- app_assoc.
    split; [reflexivity |]. split; [cbn [length]; lia |].
    constructor; [exact (score_fitness_range _ _ _ Eq) | exact Hall].
Qed.

(** On pairs of length [L] the landscape fails only when [L < 2], by a
    division by zero. *)
Lemma fitness_loop_error (L : nat) (population : list strings) :
  Forall (pair_length L) population ->
  forall fitness e,
    fitness_loop population fitness = inl e ->
    e = ZeroDivisionError /\ L < 2.
Proof.
  induction 1 as [| p population [Hp1 Hp2] _ IH]; intros fitness e H.
  - discriminate.
  - cbn [fitness_loop] in H.
    destruct (score_fitness (fst p) (snd p)) as [e' | q] eqn:Eq.
    + inversion H. subst e'.
      destruct (score_fitness_error _ _ _ (eq_trans Hp1 (eq_sym Hp2)) Eq)
        as [He Hlt].
      split; [exact He | lia].
    + exact (IH _ _ H).
Qed.

End DriverFacts.

Section MatingFacts.

Lemma selection_loop_run (population : list strings) (x : nat) :
  x = 0 \/ 0 < length population ->
  forall selection rng,
  exists new,
    selection_loop x population selection rng
    = inr (selection ++ new, advance x rng) /\
    length new = x /\
    Forall (index_below (length population)) new.
Proof.
  induction x as [| x IH]; intros Hx selection rng.
  - exists []. cbn. now rewrite app_nil_r, advance_0.
  - assert (Hn : 0 < length population) by (destruct Hx; [discriminate | auto]).
    cbn [selection_loop].
    rewrite (bind_inr _ _ _ _ _ (randint_run _ rng Hn)).
    destruct (IH (or_intror Hn)
                (selection ++ [Z.of_nat (randint_value (length population) rng)])
                (advance 1 rng)) as (new & Hrun & Hlen & Hall).
    eexists (_ :: new). rewrite Hrun, <- app_assoc, advance_advance.
    replace (x + 1) with (S x) by lia.
    split; [reflexivity |].
    split; [cbn [length]; lia |].
    constructor; [| exact Hall].
    eexists. split; [reflexivity | now apply randint_value_lt].
Qed.

(** [mutate_string] returns a string of the length of its input, or
    rejects the rate. *)
Lemma mutate_string_outcome (s : str) (rate : Q) (rng : source) :
  outcome (rate_error rate) (fun out => length out = length s)
          (mutate_string s rate rng).
Proof.
  unfold mutate_string.
  destruct (Qltb rate 0 || Qltb 1 rate) eqn:E.
  - cbn. now split.
  - destruct (mutate_loop_run s rate [] 0 rng) as (suf & s' & Hrun & Hlen & _);
      [lia |].
    rewrite Hrun. exact Hlen.
Qed.

Lemma mutate_child_outcome (child : strings) (rate : Q) (rng : source) :
  outcome (rate_error rate)
          (fun m => length (fst m) = length (fst child) /\
                    length (snd m) = length (snd child))
          (mutate_child child rate rng).
Proof.
  unfold mutate_child.
  eapply outcome_bind; [apply mutate_string_outcome |].
  intros c0 s0 _ H0.
  eapply outcome_bind; [apply mutate_string_outcome |].
  intros c1 s1 _ H1. cbn. now split.
Qed.

Lemma children_loop_outcome (L : nat) (rate : Q) (children : list strings) :
  forall mutated rng,
    outcome (rate_error rate)
      (fun out => exists new,
           out = mutated ++ new /\ length new = length children /\
           (Forall (pair_length L) children -> Forall (pair_length L) new))
      (children_loop children rate mutated rng).
Proof.
  induction children as [| child children IH]; intros mutated rng.
  - cbn. exists []. now rewrite app_nil_r.
  - cbn [children_loop].
    eapply outcome_bind; [apply mutate_child_outcome |].
    intros m s' _ [Hm0 Hm1].
    eapply outcome_weaken; [| | apply IH]; [auto |].
    intros out (new & -> & Hlen & Hwf).
    exists (m :: new). rewrite <- app_assoc.
    split; [reflexivity |]. split; [cbn [length]; lia |].
    intros Hall. apply Forall_cons_iff in Hall.
    destruct Hall as [[Hc0 Hc1] Hrest].
    constructor; [| auto].
    unfold pair_length, str in *. split; congruence.
Qed.

Lemma getitem_index_below {X : Type} (l : list X) (z : Z) :
  index_below (length l) z -> exists x, getitem l z = inr x /\ In x l.
Proof.
  intros (j & -> & Hj).
  destruct (nth_error l j) as [x |] eqn:E.
  - exists x. split; [now apply getitem_nth_error | now apply nth_error_In in E].
  - apply nth_error_None in E. lia.
Qed.

Lemma cross_strings_pair_length (L : nat) (p q : strings) :
  pair_length L p -> pair_length L q ->
  Forall (pair_length L) (cross_strings p q).
Proof.
  intros [Hp0 Hp1] [Hq0 Hq1]. unfold cross_strings.
  repeat constructor; assumption.
Qed.

Lemma offspring_loop_outcome (L : nat) (rate : Q)
  (population suitors : list strings) (selection : list Z) :
  length suitors = length population ->
  Forall (index_below (length population)) selection ->
  forall new_generation rng,
    outcome (rate_error rate)
      (fun out => exists new,
           out = new_generation ++ new /\
           length new = 2 * length selection /\
           (Forall (pair_length L) population ->
            Forall (pair_length L) suitors ->
            Forall (pair_length L) new))
      (offspring_loop selection population suitors rate new_generation rng).
Proof.
  intros Hsize Hsel. induction Hsel as [| i selection Hi _ IH];
    intros new_generation rng.
  - cbn. exists []. rewrite app_nil_r. repeat split. constructor.
  - cbn [offspring_loop].
    destruct (getitem_index_below population i Hi) as (p & Hp & Hpin).
    assert (Hi' : index_below (length suitors) i) by now rewrite Hsize.
    destruct (getitem_index_below suitors i Hi') as (q & Hq & Hqin).
    rewrite (bind_inr _ _ _ _ _ (lift_inr _ _ rng Hp)).
    rewrite (bind_inr _ _ _ _ _ (lift_inr _ _ rng Hq)).
    eapply outcome_bind; [apply (children_loop_outcome L) |].
    intros mutated s' _ (kids & Hkids & Hlen & Hwf). cbn [app] in Hkids.
    subst mutated.
    eapply outcome_weaken; [| | apply IH]; [auto |].
    intros out (new & -> & Hnew & Hall).
    exists (kids ++ new). rewrite <- app_assoc.
    split; [reflexivity |].
    split; [rewrite length_app, Hlen; cbn [length cross_strings]; lia |].
    intros Hpop Hsuit. apply Forall_app. split; [| auto].
    apply Hwf, cross_strings_pair_length.
    + exact (proj1 (Forall_forall _ _) Hpop p Hpin).
    + exact (proj1 (Forall_forall _ _) Hsuit q Hqin).
Qed.

(** A generation on a population whose landscape is defined: the new
    population has [2 * (N / 2)] pairs, and keeps the common length of the
    strings; the only exception is a rejected rate. *)
Lemma generate_new_strings_outcome (L : nat) (population : list strings)
  (tournament_size : nat) (rate : Q) (rng : source) (fitness : list Q) :
  fitness_loop population [] = inr fitness ->
  outcome (rate_error rate)
    (fun out =>
       length out = 2 * (length population / 2) /\
       (Forall (pair_length L) population -> Forall (pair_length L) out))
    (generate_new_strings population tournament_size rate rng).
Proof.
  intros Hfit. unfold generate_new_strings.
  rewrite (bind_inr _ _ _ _ _ (lift_inr _ _ rng Hfit)).
  destruct (fitness_loop_inv _ _ _ Hfit) as (new & Hnew & Hlen & _).
  cbn [app] in Hnew. subst new.
  destruct (select_suitors_run population fitness tournament_size rng Hlen)
    as (suitors & Hsuit & Hsize & Hchosen).
  rewrite (bind_inr _ _ _ _ _ Hsuit).
  destruct (selection_loop_run population (length population / 2)) with
    (selection := @nil Z)
    (rng := advance (length population * tournament_size) rng)
    as (selection & Hsel & Hsellen & Hselall).
  { destruct (length population) as [| n]; [now left | right; lia]. }
  rewrite (bind_inr _ _ _ _ _ Hsel).
  eapply outcome_weaken;
    [| | apply (offspring_loop_outcome L rate population suitors selection
                  Hsize Hselall)]; [auto |].
  intros out (kids & -> & Hkids & Hwf). cbn [app].
  split; [lia |].
  intros Hpop. apply Hwf; [exact Hpop |].
  apply Forall_forall. intros b Hb.
  destruct (In_nth_error _ _ Hb) as (i & Hi).
  assert (Hlt : i < length population).
  { rewrite <- Hsize. apply nth_error_Some. congruence. }
  rewrite (Hchosen i Hlt) in Hi. apply chosen_suitor_In in Hi.
  exact (proj1 (Forall_forall _ _) Hpop b Hi).
Qed.

End MatingFacts.

Section GenerationFacts.

Lemma not_bad_rate (rate : Q) :
  (0 <= rate)%Q -> (rate <= 1)%Q -> ~ bad_rate rate.
Proof.
  intros H0 H1 Hbad. unfold bad_rate in Hbad.
  rewrite rate_check in Hbad by assumption. discriminate.
Qed.

(** A generation on pairs of length [L]: the new population has
    [2 * (N / 2)] pairs of length [L]. *)
Lemma generate_new_strings_pair_length (L : nat) (population : list strings)
  (tournament_size : nat) (rate : Q) (rng : source) :
  Forall (pair_length L) population ->
  outcome (generation_error L rate)
    (fun out =>
       length out = 2 * (length population / 2) /\
       Forall (pair_length L) out)
    (generate_new_strings population tournament_size rate rng).
Proof.
  intros Hwf.
  destruct (fitness_loop population []) as [e | fitness] eqn:Efit.
  - unfold generate_new_strings.
    rewrite (bind_inl _ _ _ _ (f_equal (fun r => lift r rng) Efit)).
    left. exact (fitness_loop_error L population Hwf _ _ Efit).
  - eapply outcome_weaken;
      [| | apply (generate_new_strings_outcome L _ _ _ _ _ Efit)].
    + intros e He. now right.
    + intros out [Hlen Hout]. split; [exact Hlen | now apply Hout].
Qed.

Lemma generations_loop_outcome (L : nat) (tournament_size : nat) (rate : Q)
  (generations : nat) :
  forall population count rng,
    Forall (pair_length L) population ->
    outcome (generation_error L rate)
      (fun pc => length (fst pc) <= length population /\
                 Forall (pair_length L) (fst pc))
      (generations_loop generations population tournament_size rate count rng).
Proof.
  induction generations as [| generations IH]; intros population count rng Hwf.
  - cbn. split; [lia | exact Hwf].
  - cbn [generations_loop].
    destruct (length population =? 0); [cbn; split; [lia | exact Hwf] |].
    destruct (length population <=? tournament_size);
      [cbn; split; [lia | exact Hwf] |].
    eapply outcome_bind;
      [apply (generate_new_strings_pair_length L); exact Hwf |].
    intros new s' _ [Hlen Hnew].
    eapply outcome_weaken; [| | apply IH; exact Hnew]; [auto |].
    intros pc [Hle Hpc]. split; [| exact Hpc].
    pose proof (Nat.div_mod_eq (length population) 2). lia.
Qed.

Lemma evolved_loop_run (fitness : list Q) (rest : list strings) :
  forall i evolved_strings,
    i + length rest <= length fitness ->
    exists new,
      evolved_loop rest i fitness evolved_strings
      = inr (evolved_strings ++ new) /\
      length new = length rest /\
      Forall (fun e => In (key e) fitness) new.
Proof.
  induction rest as [| s rest IH]; intros i evolved_strings Hi.
  - exists []. cbn. now rewrite app_nil_r.
  - cbn [evolved_loop length] in *.
    destruct (nth_error fitness i) as [f |] eqn:Ef;
      [| apply nth_error_None in Ef; lia].
    rewrite (getitem_nth_error _ _ _ Ef).
    destruct (IH (S i) (evolved_strings ++ [(f, fst s, snd s)])) as
      (new & Hrun & Hlen & Hall); [lia |].
    exists ((f, fst s, snd s) :: new). rewrite Hrun, <- app_assoc.
    split; [reflexivity |]. split; [cbn [length]; lia |].
    constructor; [| exact Hall]. cbn. now apply nth_error_In in Ef.
Qed.

End GenerationFacts.

Section SortFacts.

Lemma insert_sorted_length (x : evolved) (l : list evolved) :
  length (insert_sorted x l) = S (length l).
Proof.
  induction l as [| y l IH]; [reflexivity |].
  cbn [insert_sorted]. destruct (Qle_bool (key x) (key y)); cbn [length]; lia.
Qed.

Lemma insert_sorted_In (x z : evolved) (l : list evolved) :
  In z (insert_sorted x l) -> z = x \/ In z l.
Proof.
  induction l as [| y l IH]; cbn [insert_sorted].
  - intros [<- | []]. now left.
  - destruct (Qle_bool (key x) (key y)).
    + intros [<- | H]; [now left | now right].
    + intros [<- | H]; [right; now left |].
      destruct (IH H) as [-> | Hz]; [now left | right; now right].
Qed.

Lemma insert_sorted_HdRel (x y : evolved) (l : list evolved) :
  le_key y x -> HdRel le_key y l -> HdRel le_key y (insert_sorted x l).
Proof.
  intros Hyx Hl. destruct l as [| z l]; cbn [insert_sorted].
  - now constructor.
  - destruct (Qle_bool (key x) (key z)); constructor; [exact Hyx |].
    now inversion Hl.
Qed.

Lemma insert_sorted_Sorted (x : evolved) (l : list evolved) :
  Sorted le_key l -> Sorted le_key (insert_sorted x l).
Proof.
  induction 1 as [| y l Hl IH Hy]; cbn [insert_sorted].
  - repeat constructor.
  - destruct (Qle_bool (key x) (key y)) eqn:E.
    + apply Qle_bool_iff in E. repeat constructor; assumption.
    + constructor; [exact IH |].
      apply insert_sorted_HdRel; [| exact Hy].
      apply Qlt_le_weak, Qnot_le_lt. intros Hle.
      apply Qle_bool_iff in Hle. congruence.
Qed.

Lemma sort_by_key_sorted (l : list evolved) : sorted_by_fitness (sort_by_key l).
Proof.
  unfold sorted_by_fitness.
  induction l as [| x l IH]; cbn [sort_by_key fold_right]; [constructor |].
  now apply insert_sorted_Sorted.
Qed.

Lemma sort_by_key_length (l : list evolved) :
  length (sort_by_key l) = length l.
Proof.
  induction l as [| x l IH]; [reflexivity |].
  cbn [sort_by_key fold_right]. fold (sort_by_key l).
  rewrite insert_sorted_length. cbn [length]. lia.
Qed.

Lemma sort_by_key_In (z : evolved) (l : list evolved) :
  In z (sort_by_key l) -> In z l.
Proof.
  induction l as [| x l IH]; [auto |].
  cbn [sort_by_key fold_right]. fold (sort_by_key l).
  intros H. apply insert_sorted_In in H.
  destruct H as [-> | H]; [now left | right; auto].
Qed.

End SortFacts.

(* ================================================================== *)
(** ** The driver *)

Section EvolveFacts.

(** Every run of [evolve_strings] ends in a list that is sorted by fitness,
    no longer than the population size and scored in [0, 1], or in one of
    three exceptions: a tournament size not below the population size, a
    division by zero on strings shorter than 2, a rejected mutation rate. *)
Lemma evolve_strings_outcome (population_size string_length generations
  tournament_size : nat) (rate : Q) (rng : source) :
  outcome (evolve_error population_size string_length tournament_size rate)
    (fun res =>
       sorted_by_fitness res /\
       length res <= population_size /\
       Forall (fun e => unit_interval (key e)) res)
    (evolve_strings population_size string_length generations tournament_size
                    rate rng).
Proof.
  unfold evolve_strings.
  destruct (Nat.leb_spec population_size tournament_size) as [Hle | Hlt].
  - cbn. left. now split.
  - destruct (generate_population_run string_length population_size rng)
      as (population & rng0 & Hpop & Hsize & Hwf).
    rewrite (bind_inr _ _ _ _ _ Hpop).
    eapply outcome_bind.
    + eapply outcome_weaken;
        [| | apply (generations_loop_outcome string_length); exact Hwf].
      * intros e He. right. exact He.
      * intros pc H. exact H.
    + intros [final count] rng1 _ [Hfinal Hwf1]. cbn [fst] in *. cbv zeta.
      destruct (fitness_loop final []) as [e | fitness] eqn:Efit.
      * cbn. right. left.
        exact (fitness_loop_error string_length final Hwf1 _ _ Efit).
      * change (lift (inr fitness)) with (ret (A := list Q) fitness).
        rewrite bind_ret.
        destruct (fitness_loop_inv _ _ _ Efit) as (new & Hnew & Hlen & Hunit).
        cbn [app] in Hnew. subst new.
        destruct (evolved_loop_run fitness final 0 []) as
          (evolved_strings & Hrun & Hlen' & Hkeys); [cbn; lia |].
        cbn [app] in Hrun.
        rewrite (bind_inr _ _ _ _ _ (lift_inr _ _ rng1 Hrun)).
        cbn [ret outcome].
        split; [apply sort_by_key_sorted |].
        split; [rewrite sort_by_key_length; lia |].
        apply Forall_forall. intros e He. apply sort_by_key_In in He.
        pose proof (proj1 (Forall_forall _ _) Hkeys e He) as Hin.
        exact (proj1 (Forall_forall _ _) Hunit _ Hin).
Qed.

(** With valid parameters no exception of [evolve_strings] is possible. *)
Lemma evolve_error_excluded (population_size string_length tournament_size : nat)
  (rate : Q) (e : exn) :
  tournament_size < population_size -> 2 <= string_length ->
  (0 <= rate)%Q -> (rate <= 1)%Q ->
  ~ evolve_error population_size string_length tournament_size rate e.
Proof.
  intros Ht HL H0 H1 [[_ Hle] | [[_ Hlt] | [_ Hbad]]]; try lia.
  exact (not_bad_rate rate H0 H1 Hbad).
Qed.

Lemma evolve_error_not_length_mismatch
  (population_size string_length tournament_size : nat) (rate : Q) :
  ~ evolve_error population_size string_length tournament_size rate
      LengthMismatch.
Proof. intros [[H _] | [[H _] | [H _]]]; discriminate. Qed.

End EvolveFacts.

Section DriverClaims.

(** C8.  On a population of [N] pairs that [score_fitness] accepts and a
    rate in [0, 1], whatever the draws, [generate_new_strings] returns
    exactly [2 * floor(N / 2)] pairs: [N] for even [N], [N - 1] for odd. *)
Theorem generate_new_strings_size (population : list strings)
  (tournament_size : nat) (mutation_rate : Q) (rng : source) :
  Forall scorable population ->
  (0 <= mutation_rate)%Q -> (mutation_rate <= 1)%Q ->
  exists new_generation rng',
    generate_new_strings population tournament_size mutation_rate rng
    = inr (new_generation, rng') /\
    length new_generation = 2 * (length population / 2) /\
    (Nat.even (length population) = true ->
     length new_generation = length population) /\
    (Nat.odd (length population) = true ->
     length new_generation = length population - 1).
Proof.
  intros Hscorable H0 H1.
  destruct (fitness_loop_run population Hscorable []) as (fitness & Hfit & _).
  cbn [app] in Hfit.
  pose proof (generate_new_strings_outcome 0 population tournament_size
                mutation_rate rng fitness Hfit) as Hout.
  apply outcome_returns in Hout.
  - destruct Hout as (new_generation & rng' & Hrun & Hlen & _).
    exists new_generation, rng'. split; [exact Hrun |].
    split; [exact Hlen |].
    pose proof (Nat.div_mod_eq (length population) 2) as Hdiv.
    pose proof (Nat.mod_upper_bound (length population) 2) as Hmod.
    split; intros Hparity.
    + apply Nat.even_spec in Hparity. destruct Hparity as [k Hk]. lia.
    + apply Nat.odd_spec in Hparity. destruct Hparity as [k Hk]. lia.
  - intros e [_ Hbad]. exact (not_bad_rate mutation_rate H0 H1 Hbad).
Qed.

Lemma generate_new_strings_size_witness :
  (Forall scorable sample_population /\ (0 <= 1 # 2)%Q /\ (1 # 2 <= 1)%Q) /\
  exists new_generation rng',
    generate_new_strings sample_population 2 (1 # 2) sample_source
    = inr (new_generation, rng') /\
    length new_generation = 2 * (length sample_population / 2) /\
    (Nat.even (length sample_population) = true ->
     length new_generation = length sample_population) /\
    (Nat.odd (length sample_population) = true ->
     length new_generation = length sample_population - 1).
Proof.
  assert (Hs : Forall scorable sample_population)
    by (repeat constructor; cbn; lia).
  split.
  - split; [exact Hs | split; discriminate].
  - apply (generate_new_strings_size sample_population 2 (1 # 2) sample_source
             Hs); discriminate.
Defined.

(** C9.  With a tournament size below the population size, strings of
    length at least 2 and a rate in [0, 1], [evolve_strings] returns; and
    whenever it returns, the list is in ascending order of fitness, has at
    most [population_size] entries, and every fitness lies in [0, 1]. *)
Theorem evolve_strings_sorted_bounded (population_size string_length
  generations tournament_size : nat) (mutation_rate : Q) (rng : source) :
  (tournament_size < population_size -> 2 <= string_length ->
   (0 <= mutation_rate)%Q -> (mutation_rate <= 1)%Q ->
   exists evolved_strings rng',
     evolve_strings population_size string_length generations tournament_size
                    mutation_rate rng = inr (evolved_strings, rng')) /\
  (forall evolved_strings rng',
     evolve_strings population_size string_length generations tournament_size
                    mutation_rate rng = inr (evolved_strings, rng') ->
     Sorted (fun x y => (key x <= key y)%Q) evolved_strings /\
     length evolved_strings <= population_size /\
     Forall (fun e => (0 <= key e)%Q /\ (key e <= 1)%Q) evolved_strings).
Proof.
  pose proof (evolve_strings_outcome population_size string_length generations
                tournament_size mutation_rate rng) as Hout.
  split.
  - intros Ht HL H0 H1. apply outcome_returns in Hout.
    + destruct Hout as (res & rng' & Hrun & _). now exists res, rng'.
    + intros e. now apply evolve_error_excluded.
  - intros res rng' Hrun. exact (outcome_value _ _ _ _ _ Hout Hrun).
Qed.

Lemma evolve_strings_sorted_bounded_witness :
  (1 < 4 /\ 2 <= 8 /\ (0 <= 0)%Q /\ (0 <= 1)%Q) /\
  exists evolved_strings rng',
    evolve_strings 4 8 3 1 0 sample_source = inr (evolved_strings, rng') /\
    Sorted (fun x y => (key x <= key y)%Q) evolved_strings /\
    length evolved_strings <= 4 /\
    Forall (fun e => (0 <= key e)%Q /\ (key e <= 1)%Q) evolved_strings.
Proof.
  split.
  - split; [lia |]. split; [lia |]. split; discriminate.
  - destruct (evolve_strings_sorted_bounded 4 8 3 1 0 sample_source)
      as [Hreturns Hsorted].
    destruct Hreturns as (res & rng' & Hrun);
      [lia | lia | discriminate | discriminate |].
    exists res, rng'. split; [exact Hrun | exact (Hsorted res rng' Hrun)].
Defined.

(** C10.  [generate_string] returns a string of the length asked for,
    [mutate_string] one of the length of its input, [cross_strings] only
    pairs whole strings again; so after any number of generations every
    string of the population has length [string_length], and no run of
    [evolve_strings] raises the length-mismatch error of [score_fitness]. *)
Theorem population_strings_keep_length (population_size string_length
  generations tournament_size : nat) (mutation_rate : Q) (rng : source) :
  (forall length s,
      exists out s',
        generate_string length s = inr (out, s') /\ List.length out = length) /\
  (forall original rate s out s',
      mutate_string original rate s = inr (out, s') ->
      length out = length original) /\
  (forall p q, cross_strings p q = [(fst p, snd q); (snd p, fst q)]) /\
  (forall population rng0 g evolved_population count rng1,
      generate_population string_length population_size rng
      = inr (population, rng0) ->
      generations_loop g population tournament_size mutation_rate 0 rng0
      = inr (evolved_population, count, rng1) ->
      Forall (fun p => length (fst p) = string_length /\
                       length (snd p) = string_length) evolved_population) /\
  evolve_strings population_size string_length generations tournament_size
                 mutation_rate rng <> inl LengthMismatch.
Proof.
  split; [| split; [| split; [| split]]].
  - intros n s. destruct (generate_string_run n s) as (out & Hrun & Hlen & _).
    now exists out, (advance n s).
  - intros original rate s out s' Hrun.
    exact (outcome_value _ _ _ _ _ (mutate_string_outcome original rate s) Hrun).
  - reflexivity.
  - intros population rng0 g evolved_population count rng1 Hpop Hrun.
    destruct (generate_population_run string_length population_size rng)
      as (population' & rng0' & Hpop' & _ & Hwf).
    rewrite Hpop in Hpop'. inversion Hpop'. subst population' rng0'.
    pose proof (generations_loop_outcome string_length tournament_size
                  mutation_rate g population 0 rng0 Hwf) as Hout.
    exact (proj2 (outcome_value _ _ _ _ _ Hout Hrun)).
  - intros Herr.
    pose proof (evolve_strings_outcome population_size string_length
                  generations tournament_size mutation_rate rng) as Hout.
    rewrite Herr in Hout.
    exact (evolve_error_not_length_mismatch _ _ _ _ Hout).
Qed.

Lemma population_strings_keep_length_witness :
  exists population rng0 evolved_population count rng1,
    generate_population 8 4 sample_source = inr (population, rng0) /\
    generations_loop 3 population 1 0 0 rng0
    = inr (evolved_population, count, rng1) /\
    Forall (fun p => length (fst p) = 8 /\ length (snd p) = 8)
           evolved_population.
Proof.
  destruct (generate_population_run 8 4 sample_source)
    as (population & rng0 & Hpop & _ & Hwf).
  pose proof (generations_loop_outcome 8 1 0 3 population 0 rng0 Hwf) as Hout.
  apply outcome_returns in Hout.
  - destruct Hout as ([evolved_population count] & rng1 & Hrun & _).
    exists population, rng0, evolved_population, count, rng1.
    split; [exact Hpop |]. split; [exact Hrun |].
    exact (proj1 (proj2 (proj2 (proj2
             (population_strings_keep_length 4 8 3 1 0 sample_source))))
             population rng0 3 evolved_population count rng1 Hpop Hrun).
  - intros e [[_ Hlt] | [_ Hbad]]; [lia | discriminate Hbad].
Defined.

End DriverClaims.

(* ================================================================== *)
(** ** Further properties *)

Section Further.

Lemma count_bases_few (s : str) :
  forall count,
    count + length (filter (fun b => (b =? "T")%char) s) <= 3 ->
    count_bases s count = s.
Proof.
  induction s as [| base s IH]; intros count Hfew; [reflexivity |].
  cbn [count_bases filter] in *. unfold count_base.
  destruct (base =? "T")%char; cbn [length] in Hfew.
  - destruct (Nat.eqb_spec (count + 1) 4); [lia |].
    rewrite IH by lia. reflexivity.
  - destruct (Nat.eqb_spec count 4); [lia |].
    rewrite IH by lia. reflexivity.
Qed.

(** X1.  With rate 0, [mutate_string] returns unchanged every string that
    has at most three ["T"] in all, and consumes one draw per base. *)
Theorem mutate_string_rate_0_few_T (original_string : str) (rng : source) :
  length (filter (fun b => (b =? "T")%char) original_string) <= 3 ->
  mutate_string original_string 0 rng
  = inr (original_string, advance (length original_string) rng).
Proof.
  intros Hfew. rewrite mutate_string_rate_0.
  now rewrite count_bases_few.
Qed.

Lemma mutate_string_rate_0_few_T_witness :
  length (filter (fun b => (b =? "T")%char) TTATC) <= 3 /\
  mutate_string TTATC 0 sample_source = inr (TTATC, advance 5 sample_source).
Proof.
  split.
  - cbn. lia.
  - apply (mutate_string_rate_0_few_T TTATC sample_source). cbn. lia.
Defined.

(** X2.  The exceptions of [evolve_strings]: a tournament size not below
    the population size, a division by zero when the strings are shorter
    than 2, a mutation rate outside [0, 1]; nothing else is raised. *)
Theorem evolve_strings_exceptions (population_size string_length generations
  tournament_size : nat) (mutation_rate : Q) (rng : source) (e : exn) :
  evolve_strings population_size string_length generations tournament_size
                 mutation_rate rng = inl e ->
  (e = InvalidTournament /\ population_size <= tournament_size) \/
  (e = ZeroDivisionError /\ string_length < 2) \/
  (e = InvalidRate /\ ((mutation_rate < 0)%Q \/ (1 < mutation_rate)%Q)).
Proof.
  intros Herr.
  pose proof (evolve_strings_outcome population_size string_length generations
                tournament_size mutation_rate rng) as Hout.
  rewrite Herr in Hout.
  destruct Hout as [Ht | [Hz | [Hr Hbad]]]; [now left | right; now left |].
  right. right. split; [exact Hr |].
  unfold bad_rate in Hbad. apply orb_true_iff in Hbad.
  destruct Hbad as [Hbad | Hbad]; apply Qltb_lt in Hbad; auto.
Qed.

Lemma evolve_strings_exceptions_witness :
  evolve_strings 4 8 3 4 0 sample_source = inl InvalidTournament /\
  ((InvalidTournament = InvalidTournament /\ 4 <= 4) \/
   (InvalidTournament = ZeroDivisionError /\ 8 < 2) \/
   (InvalidTournament = InvalidRate /\ ((0 < 0)%Q \/ (1 < 0)%Q))).
Proof.
  split.
  - reflexivity.
  - apply (evolve_strings_exceptions 4 8 3 4 0 sample_source InvalidTournament).
    reflexivity.
Defined.

End Further.

(* ================================================================== *)
(** ** More on the fitness evaluator *)

Section SubstringFacts.

Lemma length_slice {X : Type} (l : list X) (lo hi : nat) :
  hi <= length l -> length (slice l lo hi) = hi - lo.
Proof.
  intros Hhi. unfold slice. rewrite length_firstn, length_skipn. lia.
Qed.

Lemma slice_incl {X : Type} (l : list X) (lo hi : nat) (x : X) :
  In x (slice l lo hi) -> In x l.
Proof.
  unfold slice. intros H.
  rewrite <- (firstn_skipn lo l). apply in_or_app. right.
  rewrite <- (firstn_skipn (hi - lo) (skipn lo l)). apply in_or_app. now left.
Qed.

(** A slice splits the list in three. *)
Lemma slice_split {X : Type} (l : list X) (i k : nat) :
  l = firstn i l ++ slice l i (i + k) ++ skipn (i + k) l.
Proof.
  unfold slice. replace (i + k - i) with k by lia.
  rewrite <- (firstn_skipn i l) at 1. f_equal.
  rewrite <- (firstn_skipn k (skipn i l)) at 1. f_equal.
  rewrite skipn_skipn. f_equal. lia.
Qed.

Lemma nth_error_get_substrings (s : str) (k i : nat) :
  i < length s + 1 - k ->
  nth_error (get_substrings s k) i = Some (slice s i (i + k)).
Proof.
  intros Hi. unfold get_substrings.
  rewrite nth_error_map, nth_error_seq.
  destruct (Nat.ltb_spec i (length s + 1 - k)); [reflexivity | lia].
Qed.

Lemma in_get_substrings (s : str) (k : nat) (x : str) :
  In x (get_substrings s k) ->
  exists i, i < length s + 1 - k /\ x = slice s i (i + k).
Proof.
  unfold get_substrings. intros H. apply in_map_iff in H.
  destruct H as (i & <- & Hi). apply in_seq in Hi. exists i. split; [lia | auto].
Qed.

Lemma str_eqb_eq (a b : str) : str_eqb a b = true -> a = b.
Proof.
  revert b. induction a as [| x a IH]; intros [| y b]; cbn;
    try discriminate; [reflexivity |].
  intros H. apply andb_true_iff in H. destruct H as [Hx Hab].
  apply Ascii.eqb_eq in Hx. subst y. f_equal. now apply IH.
Qed.

End SubstringFacts.

Section SubstringProperties.

(** X3.  [get_substrings(s, k)] lists the [len(s) - k + 1] windows of
    width [k] from left to right (none when [k > len(s)]): the entry at
    [i] has [k] characters and is the part of [s] between its first [i]
    characters and the rest after [i + k]. *)
Theorem get_substrings_windows (full_string : str) (k : nat) :
  length (get_substrings full_string k) = length full_string + 1 - k /\
  (length full_string < k -> get_substrings full_string k = []) /\
  forall i, i + k <= length full_string ->
    exists x,
      nth_error (get_substrings full_string k) i = Some x /\
      length x = k /\
      full_string = firstn i full_string ++ x ++ skipn (i + k) full_string.
Proof.
  split; [apply length_get_substrings |]. split.
  - intros Hk. unfold get_substrings.
    now replace (length full_string + 1 - k) with 0 by lia.
  - intros i Hi. exists (slice full_string i (i + k)).
    split; [apply nth_error_get_substrings; lia |].
    split; [rewrite length_slice by lia; lia | apply slice_split].
Qed.

Lemma get_substrings_windows_witness :
  1 + 2 <= length ACGT /\
  exists x,
    nth_error (get_substrings ACGT 2) 1 = Some x /\
    length x = 2 /\
    ACGT = firstn 1 ACGT ++ x ++ skipn (1 + 2) ACGT.
Proof.
  split.
  - cbn. lia.
  - apply (proj2 (proj2 (get_substrings_windows ACGT 2)) 1). cbn. lia.
Defined.

(** X4.  [score_substrings] counts at most one match per entry of its
    first list, so the score is at most the length of that list; the bound
    is reached when both lists are the same, whatever the window. *)
Theorem score_substrings_bounds (substrings_1 substrings_2 : list str)
  (sliding_window : nat) :
  score_substrings substrings_1 substrings_2 sliding_window
  <= length substrings_1 /\
  score_substrings substrings_1 substrings_1 sliding_window
  = length substrings_1.
Proof.
  split; [apply score_substrings_le | apply score_substrings_self].
Qed.

End SubstringProperties.

Section WindowZero.

Let b2n (b : bool) : nat := if b then 1 else 0.

(** With window 0 the loop body compares the two entries at [i]. *)
Lemma score_at_window_0 (s1 s2 : list str) (h i : nat) :
  length s1 = length s2 -> i < length s1 ->
  score_at s1 s2 0 h i = h + b2n (str_eqb (nth i s1 []) (nth i s2 [])).
Proof.
  intros Hlen Hi. unfold score_at. cbn [Nat.leb].
  destruct (Nat.ltb_spec 0 (length s1 - i)); [| lia].
  rewrite (slice_one s2 i []) by lia. cbn [existsb].
  rewrite orb_false_r. destruct (str_eqb _ _); cbn; lia.
Qed.

Lemma fold_add_shift (f : nat -> nat) (l : list nat) (h : nat) :
  fold_left (fun a i => a + f i) l h = h + fold_left (fun a i => a + f i) l 0.
Proof.
  revert h. induction l as [| i l IH]; intros h; cbn [fold_left]; [lia |].
  rewrite (IH (h + f i)), (IH (0 + f i)). lia.
Qed.

Lemma fold_left_map {X Y Z : Type} (f : X -> Z -> X) (g : Y -> Z)
  (l : list Y) (a : X) :
  fold_left f (map g l) a = fold_left (fun a y => f a (g y)) l a.
Proof.
  revert a. induction l as [| y l IH]; intros a; [reflexivity |].
  cbn. apply IH.
Qed.

Lemma agreements_fold (l1 : list str) :
  forall l2,
    length l1 = length l2 ->
    fold_left (fun a i => a + b2n (str_eqb (nth i l1 []) (nth i l2 [])))
              (seq 0 (length l1)) 0
    = agreements l1 l2.
Proof.
  induction l1 as [| x l1 IH]; intros [| y l2] Hlen;
    try discriminate; [reflexivity |].
  cbn [length seq fold_left]. rewrite fold_add_shift.
  rewrite <- seq_shift, fold_left_map. cbn [nth].
  rewrite IH by (cbn [length] in Hlen; lia).
  unfold agreements. cbn [combine filter fst snd].
  destruct (str_eqb x y); cbn [b2n length]; lia.
Qed.

(** X5.  With a sliding window of 0 and lists of equal length,
    [score_substrings] is the number of positions at which the two lists
    hold the same substring. *)
Theorem score_substrings_window_0
  (substrings_1 substrings_2 : list str) :
  length substrings_1 = length substrings_2 ->
  score_substrings substrings_1 substrings_2 0
  = agreements substrings_1 substrings_2.
Proof.
  intros Hlen. unfold score_substrings.
  rewrite <- (agreements_fold substrings_1 substrings_2 Hlen).
  apply fold_left_ext_on. intros h i Hi. apply in_seq in Hi.
  apply score_at_window_0; [exact Hlen | lia].
Qed.

Lemma score_substrings_window_0_witness :
  length (get_substrings ACGT 1) = length (get_substrings ACTT 1) /\
  score_substrings (get_substrings ACGT 1) (get_substrings ACTT 1) 0
  = agreements (get_substrings ACGT 1) (get_substrings ACTT 1).
Proof.
  split.
  - reflexivity.
  - apply (score_substrings_window_0 (get_substrings ACGT 1)
             (get_substrings ACTT 1)).
    reflexivity.
Defined.

End WindowZero.

Section FitnessEdges.

Lemma max_total_small (L : nat) : L < 2 -> max_total L = 0.
Proof.
  intros HL. destruct L as [| [| L]]; [reflexivity | reflexivity | lia].
Qed.

Lemma score_fitness_unequal (a b : str) :
  length a <> length b -> score_fitness a b = inl LengthMismatch.
Proof.
  intros Hne. unfold score_fitness.
  destruct (Nat.eqb_spec (length a) (length b)); [contradiction | reflexivity].
Qed.

Lemma score_fitness_short (a b : str) :
  length a = length b -> length a < 2 ->
  score_fitness a b = inl ZeroDivisionError.
Proof.
  intros Hlen HL. unfold score_fitness.
  rewrite Hlen, Nat.eqb_refl. cbn [negb].
  pose proof (fitness_sums_max a b) as Hmax.
  rewrite (max_total_small _ HL) in Hmax.
  destruct (fitness_sums a b) as [score max_score]. cbn [snd] in Hmax.
  now subst max_score.
Qed.

(** X6.  [score_fitness] raises the length error exactly when the two
    strings differ in length, divides by zero exactly when their common
    length is 0 or 1, and returns a score exactly when their common length
    is at least 2. *)
Theorem score_fitness_cases (string_1 string_2 : str) :
  (score_fitness string_1 string_2 = inl LengthMismatch <->
   length string_1 <> length string_2) /\
  (score_fitness string_1 string_2 = inl ZeroDivisionError <->
   length string_1 = length string_2 /\ length string_1 < 2) /\
  ((exists q, score_fitness string_1 string_2 = inr q) <->
   length string_1 = length string_2 /\ 2 <= length string_1).
Proof.
  assert (Hno : forall (e : exn) (P : Prop),
             (exists q : Q, inl e = inr q) -> P)
    by (intros e P [q Hq]; discriminate).
  destruct (Nat.eq_dec (length string_1) (length string_2)) as [Heq | Hne].
  - destruct (Nat.lt_ge_cases (length string_1) 2) as [Hlt | Hge].
    + rewrite (score_fitness_short _ _ Heq Hlt).
      split; [| split]; split; intros H;
        first [discriminate | lia | exact (Hno _ _ H) | tauto].
    + rewrite (score_fitness_run _ _ Heq Hge).
      split; [| split]; split; intros H;
        first [discriminate | lia | (eexists; reflexivity) | tauto].
  - rewrite (score_fitness_unequal _ _ Hne).
    split; [| split]; split; intros H;
      first [discriminate | lia | exact (Hno _ _ H) | tauto].
Qed.



Lemma score_at_miss (s1 s2 : list str) (w h i : nat) :
  (forall x, In x s2 -> str_eqb (nth i s1 []) x = false) ->
  score_at s1 s2 w h i = h.
Proof.
  intros Hmiss. unfold score_at.
  destruct (existsb _ _) eqn:E; [| reflexivity].
  apply existsb_exists in E. destruct E as (x & Hx & Hxeq).
  apply slice_incl in Hx. rewrite (Hmiss x Hx) in Hxeq. discriminate.
Qed.

Lemma fold_left_const {X Y : Type} (f : X -> Y -> X) (l : list Y) (a : X) :
  (forall x y, In y l -> f x y = x) -> fold_left f l a = a.
Proof.
  induction l as [| y l IH]; intros H; [reflexivity |].
  cbn. rewrite H by now left. apply IH. intros x y' Hy. apply H. now right.
Qed.

(** Substrings of strings without a common character never match. *)
Lemma substrings_miss (a b : str) (k i : nat) (x : str) :
  disjoint_characters a b -> 1 <= k -> i < length a + 1 - k ->
  In x (get_substrings b k) ->
  str_eqb (nth i (get_substrings a k) []) x = false.
Proof.
  intros Hdis Hk Hi Hx.
  destruct (str_eqb _ _) eqn:E; [| reflexivity].
  apply str_eqb_eq in E.
  rewrite (nth_error_nth _ _ _ (nth_error_get_substrings a k i Hi)) in E.
  apply in_get_substrings in Hx. destruct Hx as (j & Hj & ->).
  assert (Hlen : length (slice a i (i + k)) = k)
    by (rewrite length_slice by lia; lia).
  destruct (slice a i (i + k)) as [| c rest] eqn:Es; [cbn in Hlen; lia |].
  exfalso. apply (Hdis c).
  - apply (slice_incl a i (i + k)). rewrite Es. now left.
  - apply (slice_incl b j (j + k)). rewrite <- E. now left.
Qed.

Lemma fitness_fold_score_miss (a b : str) (ks : list nat) :
  disjoint_characters a b ->
  (forall k, In k ks -> 1 <= k) ->
  forall acc, fst (fold_left (fitness_at a b) ks acc) = fst acc.
Proof.
  intros Hdis. induction ks as [| k ks IH]; intros Hks acc; [reflexivity |].
  cbn [fold_left]. rewrite IH by (intros k' Hk'; apply Hks; now right).
  destruct acc as [score max_score]. unfold fitness_at. cbn [fst].
  unfold score_substrings. rewrite fold_left_const; [lia |].
  intros h i Hi. apply in_seq in Hi. rewrite length_get_substrings in Hi.
  apply score_at_miss. intros x Hx.
  apply (substrings_miss a b);
    [exact Hdis | apply Hks; now left | lia | exact Hx].
Qed.

(** X8.  Two strings of equal length at least 2 that share no character
    have fitness exactly 0: no substring of the first occurs in the
    second. *)
Theorem score_fitness_disjoint (string_1 string_2 : str) :
  disjoint_characters string_1 string_2 ->
  length string_1 = length string_2 -> 2 <= length string_1 ->
  score_fitness string_1 string_2 = inr 0%Q.
Proof.
  intros Hdis Hlen HL. rewrite score_fitness_run by assumption.
  unfold fitness_sums. rewrite fitness_fold_score_miss.
  - cbn [fst Z.of_nat]. reflexivity.
  - exact Hdis.
  - intros k Hk. apply in_seq in Hk. lia.
Qed.

Lemma score_fitness_disjoint_witness :
  (disjoint_characters AAAAA (repeat "C"%char 5) /\
   length AAAAA = length (repeat "C"%char 5) /\ 2 <= length AAAAA) /\
  score_fitness AAAAA (repeat "C"%char 5) = inr 0%Q.
Proof.
  assert (Hdis : disjoint_characters AAAAA (repeat "C"%char 5)).
  { intros c Ha Hb. apply repeat_spec in Hb. subst c.
    cbn in Ha. repeat (destruct Ha as [Ha | Ha]; [discriminate |]).
    exact Ha. }
  split.
  - split; [exact Hdis | split; [reflexivity | cbn; lia]].
  - apply (score_fitness_disjoint AAAAA (repeat "C"%char 5) Hdis);
      [reflexivity | cbn; lia].
Defined.

End FitnessEdges.

(* ================================================================== *)
(** ** More on the sequence codec *)

Section CodecShapes.

Lemma bind_returns {A B : Type} (c : M A) (k : A -> M B) (s s2 : source)
  (b : B) :
  bind c k s = inr (b, s2) ->
  exists a s1, c s = inr (a, s1) /\ k a s1 = inr (b, s2).
Proof.
  unfold bind. destruct (c s) as [e | [a s1]]; [discriminate |].
  intros H. now exists a, s1.
Qed.

Lemma C_in_bases : In "C"%char bases.
Proof. right. now left. Qed.

Lemma count_base_cases (b : ascii) (count : nat) :
  fst (count_base b count) = b \/ fst (count_base b count) = "C"%char.
Proof.
  unfold count_base.
  destruct (_ =? 4); cbn [fst]; auto.
Qed.

Lemma count_base_bases (b : ascii) (count : nat) :
  In b bases -> In (fst (count_base b count)) bases.
Proof.
  intros Hb.
  destruct (count_base_cases b count) as [-> | ->];
    [exact Hb | apply C_in_bases].
Qed.

Lemma generate_loop_bases (x : nat) :
  forall new_bases count s out s',
    generate_loop x new_bases count s = inr (out, s') ->
    exists suf, out = new_bases ++ suf /\ over_bases suf.
Proof.
  induction x as [| x IH]; intros new_bases count s out s' H.
  - cbn in H. inversion H. exists []. split; [now rewrite app_nil_r |].
    constructor.
  - cbn [generate_loop] in H.
    destruct (choice_run bases s) as (b & Hin & Hb); [discriminate |].
    rewrite (bind_inr _ _ _ _ _ Hb) in H.
    pose proof (count_base_bases b count Hin) as Hb'.
    destruct (count_base b count) as [b' count']. cbn [fst] in Hb'.
    destruct (IH _ _ _ _ _ H) as (suf & -> & Hsuf).
    exists (b' :: suf). rewrite <- app_assoc.
    split; [reflexivity | now constructor].
Qed.

(** The characters a pass of [mutate_string] writes, position by position:
    [R] relates the base read to the base written. *)
Lemma mutate_loop_pointwise (R : ascii -> ascii -> Prop) (rate : Q) :
  (forall base s b s1 count,
      (if Qltb (random_value s) rate then mutate_base base else ret base)
        (advance 1 s) = inr (b, s1) ->
      R base (fst (count_base b count))) ->
  forall original new_bases count s out s',
    mutate_loop original rate new_bases count s = inr (out, s') ->
    exists suf, out = new_bases ++ suf /\ Forall2 R original suf.
Proof.
  intros HR.
  induction original as [| base original IH];
    intros new_bases count s out s' H.
  - cbn in H. inversion H. exists []. split; [now rewrite app_nil_r |].
    constructor.
  - cbn [mutate_loop] in H.
    rewrite (bind_inr _ _ _ _ _ (random_run s)) in H.
    apply bind_returns in H. destruct H as (b & s1 & Hb & H).
    pose proof (HR base s b s1 count Hb) as Hrel.
    destruct (count_base b count) as [b' count']. cbn [fst] in Hrel.
    destruct (IH _ _ _ _ _ H) as (suf & -> & Hsuf).
    exists (b' :: suf). rewrite <- app_assoc.
    split; [reflexivity | now constructor].
Qed.

Lemma mutate_string_pointwise_generic (R : ascii -> ascii -> Prop)
  (rate : Q) (original_string out : str) (s s' : source) :
  (forall base s b s1 count,
      (if Qltb (random_value s) rate then mutate_base base else ret base)
        (advance 1 s) = inr (b, s1) ->
      R base (fst (count_base b count))) ->
  mutate_string original_string rate s = inr (out, s') ->
  Forall2 R original_string out.
Proof.
  intros HR H. unfold mutate_string in H.
  destruct (Qltb rate 0 || Qltb 1 rate); [discriminate |].
  destruct (mutate_loop_pointwise R rate HR _ _ _ _ _ _ H) as (suf & -> & Hsuf).
  exact Hsuf.
Qed.

Lemma Forall2_over_bases (a b : str) :
  Forall2 (fun i o => o = i \/ In o bases) a b ->
  over_bases a -> over_bases b.
Proof.
  unfold over_bases. induction 1 as [| i o a b Hio _ IH]; intros Ha.
  - constructor.
  - apply Forall_cons_iff in Ha. destruct Ha as [Hi Ha].
    constructor; [destruct Hio as [-> | Ho]; assumption | auto].
Qed.

End CodecShapes.

Section CodecProperties.

(** X9.  [generate_string(length)] consumes exactly [length] draws and
    returns [length] characters, each one of A, C, T, G. *)
Theorem generate_string_over_bases (length : nat) (rng : source) :
  exists out,
    generate_string length rng = inr (out, advance length rng) /\
    List.length out = length /\
    over_bases out.
Proof.
  destruct (generate_string_run length rng) as (out & Hrun & Hlen & _).
  exists out. split; [exact Hrun |]. split; [exact Hlen |].
  destruct (generate_loop_bases _ _ _ _ _ _ Hrun) as (suf & -> & Hsuf).
  exact Hsuf.
Qed.

(** X10.  [mutate_base] never raises and never returns its argument: the
    result is one of A, C, T, G and differs from the base given, whether
    or not that base is in the alphabet. *)
Theorem mutate_base_changes (base : ascii) (rng : source) :
  exists new_base,
    mutate_base base rng = inr (new_base, advance 1 rng) /\
    new_base <> base /\
    In new_base bases.
Proof.
  destruct (mutate_base_run base rng) as (b & Hne & Hin & Hrun).
  now exists b.
Qed.


(** X12.  Every character [mutate_string] returns is the character of the
    input at the same position or one of A, C, T, G; so a string over the
    alphabet stays over the alphabet. *)
Theorem mutate_string_pointwise (original_string : str) (rate : Q)
  (rng : source) (out : str) (rng' : source) :
  mutate_string original_string rate rng = inr (out, rng') ->
  Forall2 (fun i o => o = i \/ In o bases) original_string out /\
  (over_bases original_string -> over_bases out).
Proof.
  intros Hrun.
  assert (H : Forall2 (fun i o => o = i \/ In o bases) original_string out).
  { apply (mutate_string_pointwise_generic _ rate _ _ rng rng'); [| exact Hrun].
    intros base s b s1 count Hb.
    destruct (count_base_cases b count) as [-> | ->];
      [| right; apply C_in_bases].
    destruct (Qltb (random_value s) rate).
    - destruct (mutate_base_run base (advance 1 s)) as (b' & _ & Hin & Hb').
      rewrite Hb' in Hb. inversion Hb. subst b'. now right.
    - inversion Hb. now left. }
  split; [exact H | now apply Forall2_over_bases].
Qed.

Lemma mutate_string_pointwise_witness :
  exists out rng',
    mutate_string TTATT (1 # 2) sample_source = inr (out, rng') /\
    Forall2 (fun i o => o = i \/ In o bases) TTATT out /\
    (over_bases TTATT -> over_bases out).
Proof.
  destruct (mutate_string_run TTATT (1 # 2) sample_source)
    as (out & rng' & Hrun & _); [discriminate | discriminate |].
  exists out, rng'. split; [exact Hrun |].
  exact (mutate_string_pointwise TTATT (1 # 2) sample_source out rng' Hrun).
Defined.

(** X13.  With rate 1 every base is mutated: [mutate_string] returns, the
    character at each position differs from the input's or is the ["C"]
    that replaces a fourth ["T"], and the result is over A, C, T, G
    whatever the input holds. *)
Theorem mutate_string_rate_1 (original_string : str) (rng : source) :
  exists out rng',
    mutate_string original_string 1 rng = inr (out, rng') /\
    Forall2 (fun i o => o <> i \/ o = "C"%char) original_string out /\
    over_bases out.
Proof.
  destruct (mutate_string_run original_string 1 rng) as
    (out & rng' & Hrun & _); [discriminate | discriminate |].
  exists out, rng'. split; [exact Hrun |].
  assert (Hlt : forall s, Qltb (random_value s) 1 = true)
    by (intros s; apply Qltb_lt, random_value_range).
  split.
  - apply (mutate_string_pointwise_generic _ 1 _ _ rng rng'); [| exact Hrun].
    intros base s b s1 count Hb. rewrite Hlt in Hb.
    destruct (mutate_base_run base (advance 1 s)) as (b' & Hne & _ & Hb').
    rewrite Hb' in Hb. inversion Hb. subst b'.
    destruct (count_base_cases b count) as [-> | ->]; auto.
  - assert (H : Forall2 (fun _ o => In o bases) original_string out).
    { apply (mutate_string_pointwise_generic _ 1 _ _ rng rng'); [| exact Hrun].
      intros base s b s1 count Hb. rewrite Hlt in Hb.
      destruct (mutate_base_run base (advance 1 s)) as (b' & _ & Hin & Hb').
      rewrite Hb' in Hb. inversion Hb. subst b'.
      now apply count_base_bases. }
    unfold over_bases. clear Hrun.
    induction H; constructor; auto.
Qed.

End CodecProperties.

Section RemoveTerminators.

Let flipped (i o : ascii) : Prop := o = i \/ (i = "T"%char /\ o = "A"%char).

Lemma remove_loop_run (sequence : str) :
  forall count new_bases,
    count <= 3 ->
    exists suf,
      remove_loop sequence count new_bases = new_bases ++ suf /\
      length suf = length sequence /\
      Forall2 flipped sequence suf /\
      forall run, run <= count -> terminator_free_from suf run = true.
Proof.
  induction sequence as [| base sequence IH]; intros count new_bases Hc.
  - exists []. cbn. rewrite app_nil_r. repeat split. constructor.
  - cbn [remove_loop].
    destruct (base =? "T")%char eqn:Eb.
    + destruct (Nat.eqb_spec (count + 1) 4) as [E4 | E4].
      * destruct (IH 0 (new_bases ++ ["A"%char])) as
          (suf & Hrun & Hlen & Hrel & Hfree); [lia |].
        exists ("A"%char :: suf). rewrite Hrun, <- app_assoc.
        split; [reflexivity |]. split; [cbn [length]; lia |].
        split; [constructor; [right; split; [now apply Ascii.eqb_eq |
                                             reflexivity] | exact Hrel] |].
        intros run _. cbn. apply Hfree. lia.
      * destruct (IH (count + 1) (new_bases ++ [base])) as
          (suf & Hrun & Hlen & Hrel & Hfree); [lia |].
        exists (base :: suf). rewrite Hrun, <- app_assoc.
        split; [reflexivity |]. split; [cbn [length]; lia |].
        split; [constructor; [now left | exact Hrel] |].
        intros run Hr. cbn [terminator_free_from]. rewrite Eb.
        rewrite Hfree by lia. rewrite andb_true_r. apply Nat.ltb_lt. lia.
    + destruct (Nat.eqb_spec count 4) as [E4 | E4]; [lia |].
      destruct (IH count (new_bases ++ [base])) as
        (suf & Hrun & Hlen & Hrel & Hfree); [lia |].
      exists (base :: suf). rewrite Hrun, <- app_assoc.
      split; [reflexivity |]. split; [cbn [length]; lia |].
      split; [constructor; [now left | exact Hrel] |].
      intros run _. cbn [terminator_free_from]. rewrite Eb. apply Hfree. lia.
Qed.

Lemma remove_loop_few (sequence : str) :
  forall count new_bases,
    count + count_T sequence <= 3 ->
    remove_loop sequence count new_bases = new_bases ++ sequence.
Proof.
  unfold count_T.
  induction sequence as [| base sequence IH]; intros count new_bases Hfew.
  - cbn. now rewrite app_nil_r.
  - cbn [remove_loop filter] in *.
    destruct (base =? "T")%char; cbn [length] in Hfew.
    + destruct (Nat.eqb_spec (count + 1) 4); [lia |].
      rewrite IH by lia. now rewrite <- app_assoc.
    + destruct (Nat.eqb_spec count 4); [lia |].
      rewrite IH by lia. now rewrite <- app_assoc.
Qed.

(** X14.  [remove_terminators] keeps the length of the sequence, leaves no
    run of four or more ["T"], and changes a character only by turning a
    ["T"] into ["A"]. *)
Theorem remove_terminators_shape (sequence : str) :
  length (remove_terminators sequence) = length sequence /\
  ~ has_terminator (remove_terminators sequence) /\
  Forall2 (fun i o => o = i \/ (i = "T"%char /\ o = "A"%char))
          sequence (remove_terminators sequence).
Proof.
  unfold remove_terminators.
  destruct (remove_loop_run sequence 0 []) as (suf & Hrun & Hlen & Hrel & Hfree);
    [lia |].
  rewrite Hrun. cbn [app].
  split; [exact Hlen |]. split; [| exact Hrel].
  apply terminator_free_sound. apply Hfree. lia.
Qed.

(** X15.  [remove_terminators] returns unchanged every sequence that holds
    at most three ["T"] in all. *)
Theorem remove_terminators_few_T (sequence : str) :
  count_T sequence <= 3 -> remove_terminators sequence = sequence.
Proof.
  intros Hfew. unfold remove_terminators.
  now rewrite remove_loop_few by lia.
Qed.

Lemma remove_terminators_few_T_witness :
  count_T TTATC <= 3 /\ remove_terminators TTATC = TTATC.
Proof.
  split.
  - cbn. lia.
  - apply (remove_terminators_few_T TTATC). cbn. lia.
Defined.

End RemoveTerminators.

(* ================================================================== *)
(** ** More on the population and the selection *)

Section PopulationShapes.

Lemma well_formed_valid (L : nat) (s : str) :
  well_formed L s -> valid_sequence L s.
Proof.
  intros (Hlen & Hfree & Hbases).
  split; [exact Hlen |]. split; [now apply terminator_free_sound | exact Hbases].
Qed.

Lemma generate_string_well_formed (L : nat) (s : source) :
  exists out,
    generate_string L s = inr (out, advance L s) /\ well_formed L out.
Proof.
  destruct (generate_string_run L s) as (out & Hrun & Hlen & Hfree).
  exists out. split; [exact Hrun |].
  split; [exact Hlen |]. split; [exact Hfree |].
  destruct (generate_loop_bases _ _ _ _ _ _ Hrun) as (suf & -> & Hsuf).
  exact Hsuf.
Qed.

Lemma population_loop_well_formed (L i : nat) :
  forall population rng,
  exists new,
    population_loop L i population rng
    = inr (population ++ new, advance (i * (L + L)) rng) /\
    length new = i /\
    Forall (both (well_formed L)) new.
Proof.
  induction i as [| i IH]; intros population rng.
  - exists []. cbn. now rewrite app_nil_r, advance_0.
  - cbn [population_loop].
    destruct (generate_string_well_formed L rng) as (s0 & H0 & Hw0).
    destruct (generate_string_well_formed L (advance L rng))
      as (s1 & H1 & Hw1).
    rewrite (bind_inr _ _ _ _ _ H0), (bind_inr _ _ _ _ _ H1).
    destruct (IH (population ++ [(s0, s1)]) (advance L (advance L rng)))
      as (new & Hrun & Hlen & Hwf).
    exists ((s0, s1) :: new). rewrite Hrun, <- app_assoc, !advance_advance.
    split; [do 2 f_equal; f_equal; lia |].
    split; [cbn [length]; lia |].
    constructor; [now split | exact Hwf].
Qed.

Lemma generate_population_well_formed (L size : nat) (rng : source) :
  exists population,
    generate_population L size rng
    = inr (population, advance (size * (L + L)) rng) /\
    length population = size /\
    Forall (both (well_formed L)) population.
Proof.
  destruct (population_loop_well_formed L size [] rng)
    as (new & Hrun & Hlen & Hwf).
  now exists new.
Qed.

Lemma both_impl (P P' : str -> Prop) (l : list strings) :
  (forall s, P s -> P' s) -> Forall (both P) l -> Forall (both P') l.
Proof.
  intros HP. apply Forall_impl. intros p [H0 H1]. split; auto.
Qed.

End PopulationShapes.

Section PopulationProperties.

(** X16.  [generate_population(string_length, size)] consumes exactly
    [2 * string_length * size] draws and returns [size] pairs; both
    strings of every pair have length [string_length], are over A, C, T, G
    and hold no run of four or more ["T"]. *)
Theorem generate_population_shape (string_length size : nat) (rng : source) :
  exists population,
    generate_population string_length size rng
    = inr (population, advance (2 * string_length * size) rng) /\
    length population = size /\
    Forall (both (valid_sequence string_length)) population.
Proof.
  destruct (generate_population_well_formed string_length size rng)
    as (population & Hrun & Hlen & Hwf).
  exists population.
  replace (2 * string_length * size)
    with (size * (string_length + string_length)) by lia.
  split; [exact Hrun |]. split; [exact Hlen |].
  exact (both_impl _ _ _ (well_formed_valid string_length) Hwf).
Qed.

(** X17.  A suitor is never less fit than the individual it is chosen
    for: the suitor of individual [i] is [population[j]] for an index [j]
    that is [i] itself or has [fitness[j] < fitness[i]]. *)
Theorem suitor_not_less_fit (population : list strings) (fitness : list Q)
  (tournament_size : nat) (rng : source) (suitors : list strings)
  (rng' : source) :
  length fitness = length population ->
  select_suitors population fitness tournament_size rng = inr (suitors, rng') ->
  forall i b,
    nth_error suitors i = Some b ->
    exists j,
      nth_error population j = Some b /\
      (j = i \/ (nth j fitness 0 < nth i fitness 0)%Q).
Proof.
  intros Hlen Hrun i b Hb.
  destruct (select_suitors_run population fitness tournament_size rng Hlen)
    as (suitors0 & Hrun0 & Hsize & Hchosen).
  rewrite Hrun in Hrun0. inversion Hrun0. subst suitors0.
  assert (Hi : i < length population).
  { rewrite <- Hsize. apply nth_error_Some. congruence. }
  rewrite (Hchosen i Hi) in Hb. unfold chosen_suitor, last_better in Hb.
  destruct (find _ _) as [j |] eqn:E.
  - apply find_some in E. destruct E as [_ Hbeats].
    exists j. split; [exact Hb | right]. now apply Qltb_lt.
  - exists i. split; [exact Hb | now left].
Qed.

Lemma suitor_not_less_fit_witness :
  length sample_fitness = length sample_population /\
  exists suitors rng',
    select_suitors sample_population sample_fitness 3 sample_source
    = inr (suitors, rng') /\
    forall i b,
      nth_error suitors i = Some b ->
      exists j,
        nth_error sample_population j = Some b /\
        (j = i \/ (nth j sample_fitness 0 < nth i sample_fitness 0)%Q).
Proof.
  split; [reflexivity |].
  destruct (select_suitors_run sample_population sample_fitness 3
              sample_source eq_refl) as (suitors & Hrun & _).
  exists suitors, (advance (length sample_population * 3) sample_source).
  split; [exact Hrun |].
  exact (suitor_not_less_fit sample_population sample_fitness 3 sample_source
           suitors _ eq_refl Hrun).
Defined.

Lemma suitors_loop_0 (population : list strings) (fitness : list Q)
  (rest : list strings) :
  forall i suitors rng,
    suitors_loop rest i population fitness 0 suitors rng
    = inr (suitors ++ rest, rng).
Proof.
  induction rest as [| s rest IH]; intros i suitors rng.
  - cbn. now rewrite app_nil_r.
  - cbn [suitors_loop tournament]. rewrite bind_ret, IH.
    now rewrite <- app_assoc.
Qed.

(** X18.  With a tournament size of 0 no index is drawn and every
    individual is its own suitor: the suitors are the population itself,
    whatever the fitness list. *)
Theorem select_suitors_without_tournament (population : list strings)
  (fitness : list Q) (rng : source) :
  select_suitors population fitness 0 rng = inr (population, rng).
Proof. unfold select_suitors. now rewrite suitors_loop_0. Qed.

End PopulationProperties.

(* ================================================================== *)
(** ** What a generation passes on *)

Section MatingInvariant.

Variable rate : Q.
Variables Pin Pout : str -> Prop.

(** What [mutate_string] makes of a string that satisfies [Pin]. *)
Hypothesis mutated :
  forall s rng out rng',
    Pin s -> mutate_string s rate rng = inr (out, rng') -> Pout out.

Lemma lift_returns {A : Type} (r : exn + A) (a : A) (s s' : source) :
  lift r s = inr (a, s') -> r = inr a /\ s' = s.
Proof.
  destruct r as [e | x]; cbn; [discriminate |].
  intros H. inversion H. now split.
Qed.

Lemma getitem_In {X : Type} (l : list X) (i : Z) (x : X) :
  getitem l i = inr x -> In x l.
Proof.
  unfold getitem. destruct (_ <? 0)%Z; [discriminate |].
  destruct (nth_error l _) as [y |] eqn:E; [| discriminate].
  intros H. inversion H. subst y. now apply nth_error_In in E.
Qed.

Lemma mutate_child_passes (child m : strings) (rng rng' : source) :
  both Pin child ->
  mutate_child child rate rng = inr (m, rng') -> both Pout m.
Proof.
  intros [H0 H1] Hrun. unfold mutate_child in Hrun.
  apply bind_returns in Hrun. destruct Hrun as (c0 & s0 & Hc0 & Hrun).
  apply bind_returns in Hrun. destruct Hrun as (c1 & s1 & Hc1 & Hrun).
  inversion Hrun. subst m. split; cbn [fst snd]; eauto.
Qed.

Lemma children_loop_passes (children : list strings) :
  forall mutated_children rng out rng',
    Forall (both Pin) children ->
    children_loop children rate mutated_children rng = inr (out, rng') ->
    exists new, out = mutated_children ++ new /\ Forall (both Pout) new.
Proof.
  induction children as [| child children IH];
    intros mutated_children rng out rng' Hall Hrun.
  - inversion Hrun. exists []. split; [now rewrite app_nil_r | constructor].
  - cbn [children_loop] in Hrun. apply Forall_cons_iff in Hall.
    destruct Hall as [Hchild Hall].
    apply bind_returns in Hrun. destruct Hrun as (m & s1 & Hm & Hrun).
    destruct (IH _ _ _ _ Hall Hrun) as (new & -> & Hnew).
    exists (m :: new). rewrite <- app_assoc. split; [reflexivity |].
    constructor; [exact (mutate_child_passes _ _ _ _ Hchild Hm) | exact Hnew].
Qed.

Lemma cross_strings_both (P : str -> Prop) (p q : strings) :
  both P p -> both P q -> Forall (both P) (cross_strings p q).
Proof.
  intros [Hp0 Hp1] [Hq0 Hq1]. unfold cross_strings.
  repeat constructor; assumption.
Qed.

Lemma offspring_loop_passes (population suitors : list strings)
  (selection : list Z) :
  Forall (both Pin) population -> Forall (both Pin) suitors ->
  forall new_generation rng out rng',
    offspring_loop selection population suitors rate new_generation rng
    = inr (out, rng') ->
    exists new, out = new_generation ++ new /\ Forall (both Pout) new.
Proof.
  intros Hpop Hsuit.
  induction selection as [| i selection IH];
    intros new_generation rng out rng' Hrun.
  - inversion Hrun. exists []. split; [now rewrite app_nil_r | constructor].
  - cbn [offspring_loop] in Hrun.
    apply bind_returns in Hrun. destruct Hrun as (p & s1 & Hp & Hrun).
    apply lift_returns in Hp. destruct Hp as [Hp ->].
    apply bind_returns in Hrun. destruct Hrun as (q & s2 & Hq & Hrun).
    apply lift_returns in Hq. destruct Hq as [Hq ->].
    apply bind_returns in Hrun. destruct Hrun as (kids & s3 & Hkids & Hrun).
    apply children_loop_passes in Hkids.
    + destruct Hkids as (new1 & -> & Hnew1). cbn [app] in Hrun.
      destruct (IH _ _ _ _ Hrun) as (new2 & -> & Hnew2).
      exists (new1 ++ new2). rewrite <- app_assoc. split; [reflexivity |].
      apply Forall_app. now split.
    + apply cross_strings_both.
      * exact (proj1 (Forall_forall _ _) Hpop p (getitem_In _ _ _ Hp)).
      * exact (proj1 (Forall_forall _ _) Hsuit q (getitem_In _ _ _ Hq)).
Qed.

Lemma select_suitors_members (P : strings -> Prop)
  (population : list strings) (fitness : list Q) (t : nat)
  (rng rng' : source) (suitors : list strings) :
  length fitness = length population ->
  select_suitors population fitness t rng = inr (suitors, rng') ->
  Forall P population -> Forall P suitors.
Proof.
  intros Hlen Hrun Hpop.
  destruct (select_suitors_run population fitness t rng Hlen)
    as (suitors0 & Hrun0 & Hsize & Hchosen).
  rewrite Hrun in Hrun0. inversion Hrun0. subst suitors0.
  apply Forall_forall. intros b Hb.
  destruct (In_nth_error _ _ Hb) as (i & Hi).
  assert (Hlt : i < length population).
  { rewrite <- Hsize. apply nth_error_Some. congruence. }
  rewrite (Hchosen i Hlt) in Hi. apply chosen_suitor_In in Hi.
  exact (proj1 (Forall_forall _ _) Hpop b Hi).
Qed.

Lemma generate_new_strings_passes (population : list strings) (t : nat)
  (rng rng' : source) (new_generation : list strings) :
  Forall (both Pin) population ->
  generate_new_strings population t rate rng = inr (new_generation, rng') ->
  Forall (both Pout) new_generation.
Proof.
  intros Hpop Hrun. unfold generate_new_strings in Hrun.
  apply bind_returns in Hrun. destruct Hrun as (fitness & s1 & Hfit & Hrun).
  apply lift_returns in Hfit. destruct Hfit as [Hfit ->].
  destruct (fitness_loop_inv _ _ _ Hfit) as (new & Hnew & Hlen & _).
  cbn [app] in Hnew. subst new.
  apply bind_returns in Hrun. destruct Hrun as (suitors & s2 & Hsuit & Hrun).
  apply bind_returns in Hrun. destruct Hrun as (selection & s3 & _ & Hrun).
  pose proof (select_suitors_members _ _ _ _ _ _ _ Hlen Hsuit Hpop) as Hs.
  destruct (offspring_loop_passes population suitors selection Hpop Hs
              _ _ _ _ Hrun) as (new & -> & Hnew).
  exact Hnew.
Qed.

End MatingInvariant.

Section GenerationInvariant.

Lemma mutate_string_bases (s : str) (rate : Q) (rng : source) (out : str)
  (rng' : source) :
  mutate_string s rate rng = inr (out, rng') ->
  over_bases s -> over_bases out.
Proof.
  intros Hrun. apply Forall2_over_bases.
  apply (mutate_string_pointwise_generic _ rate _ _ rng rng'); [| exact Hrun].
  intros base s0 b s1 count Hb.
  destruct (count_base_cases b count) as [-> | ->];
    [| right; apply C_in_bases].
  destruct (Qltb (random_value s0) rate).
  - destruct (mutate_base_run base (advance 1 s0)) as (b' & _ & Hin & Hb').
    rewrite Hb' in Hb. inversion Hb. subst b'. now right.
  - inversion Hb. now left.
Qed.

Lemma mutate_string_free (s : str) (rate : Q) (rng : source) (out : str)
  (rng' : source) :
  mutate_string s rate rng = inr (out, rng') ->
  length out = length s /\ terminator_free out = true.
Proof.
  intros Hrun. unfold mutate_string in Hrun.
  destruct (Qltb rate 0 || Qltb 1 rate); [discriminate |].
  destruct (mutate_loop_run s rate [] 0 rng) as (suf & s' & Hrun' & Hlen & Hfree);
    [lia |].
  rewrite Hrun in Hrun'. inversion Hrun'. subst out.
  split; [exact Hlen | apply Hfree; lia].
Qed.

(** [mutate_string] turns a string of length [L] over the alphabet into a
    well-formed one. *)
Lemma mutate_string_well_formed (L : nat) (rate : Q) (s : str) (rng : source)
  (out : str) (rng' : source) :
  length s = L /\ over_bases s ->
  mutate_string s rate rng = inr (out, rng') -> well_formed L out.
Proof.
  intros [Hlen Hbases] Hrun.
  destruct (mutate_string_free _ _ _ _ _ Hrun) as [Hlen' Hfree].
  split; [congruence |]. split; [exact Hfree |].
  exact (mutate_string_bases _ _ _ _ _ Hrun Hbases).
Qed.

Lemma well_formed_weaken (L : nat) (s : str) :
  well_formed L s -> length s = L /\ over_bases s.
Proof. intros (H1 & _ & H3). now split. Qed.

Lemma generations_loop_well_formed (L t : nat) (rate : Q) (generations : nat) :
  forall population count rng final count' rng',
    Forall (both (well_formed L)) population ->
    generations_loop generations population t rate count rng
    = inr (final, count', rng') ->
    Forall (both (well_formed L)) final.
Proof.
  induction generations as [| generations IH];
    intros population count rng final count' rng' Hwf Hrun.
  - inversion Hrun. now subst.
  - cbn [generations_loop] in Hrun.
    destruct (length population =? 0); [inversion Hrun; now subst |].
    destruct (length population <=? t); [inversion Hrun; now subst |].
    apply bind_returns in Hrun. destruct Hrun as (new & s1 & Hnew & Hrun).
    refine (IH _ _ _ _ _ _ _ Hrun).
    apply (generate_new_strings_passes rate
             (fun s => length s = L /\ over_bases s) (well_formed L)
             (mutate_string_well_formed L rate) population t rng s1 new);
      [| exact Hnew].
    exact (both_impl _ _ _ (well_formed_weaken L) Hwf).
Qed.

End GenerationInvariant.

(* ================================================================== *)
(** ** More on the driver *)

Section EvolveShapes.

(** The stages of a run of [evolve_strings] that returns. *)
Lemma evolve_strings_stages (population_size string_length generations
  tournament_size : nat) (rate : Q) (rng rng' : source) (res : list evolved) :
  evolve_strings population_size string_length generations tournament_size
                 rate rng = inr (res, rng') ->
  tournament_size < population_size /\
  exists population rng0 final count fitness evolved_strings,
    generate_population string_length population_size rng
    = inr (population, rng0) /\
    generations_loop generations population tournament_size rate 0 rng0
    = inr (final, count, rng') /\
    fitness_loop final [] = inr fitness /\
    evolved_loop final 0 fitness [] = inr evolved_strings /\
    res = sort_by_key evolved_strings.
Proof.
  unfold evolve_strings. intros Hrun.
  destruct (Nat.leb_spec population_size tournament_size); [discriminate |].
  split; [assumption |].
  apply bind_returns in Hrun. destruct Hrun as (population & rng0 & Hpop & Hrun).
  apply bind_returns in Hrun. destruct Hrun as ([final count] & rng1 & Hgen & Hrun).
  cbv zeta in Hrun. cbn [fst] in Hrun.
  apply bind_returns in Hrun. destruct Hrun as (fitness & s1 & Hfit & Hrun).
  apply lift_returns in Hfit. destruct Hfit as [Hfit ->].
  apply bind_returns in Hrun. destruct Hrun as (evs & s2 & Hevs & Hrun).
  apply lift_returns in Hevs. destruct Hevs as [Hevs ->].
  inversion Hrun. subst.
  now exists population, rng0, final, count, fitness, evs.
Qed.

Lemma fitness_loop_scores (population : list strings) :
  forall fitness result,
    fitness_loop population fitness = inr result ->
    exists new,
      result = fitness ++ new /\
      Forall2 (fun p f => score_fitness (fst p) (snd p) = inr f)
              population new.
Proof.
  induction population as [| p population IH]; intros fitness result H.
  - inversion H. exists []. split; [now rewrite app_nil_r | constructor].
  - cbn [fitness_loop] in H.
    destruct (score_fitness (fst p) (snd p)) as [e | q] eqn:Eq;
      [discriminate |].
    destruct (IH _ _ H) as (new & -> & Hall).
    exists (q :: new). rewrite <- app_assoc.
    split; [reflexivity | now constructor].
Qed.

Lemma Forall2_nth_error {X Y : Type} (R : X -> Y -> Prop) (l1 : list X)
  (l2 : list Y) :
  Forall2 R l1 l2 ->
  forall i x y,
    nth_error l1 i = Some x -> nth_error l2 i = Some y -> R x y.
Proof.
  induction 1 as [| a b l1 l2 Hab _ IH]; intros [| i] x y Hx Hy;
    try discriminate.
  - inversion Hx. inversion Hy. now subst.
  - exact (IH i x y Hx Hy).
Qed.

(** Every entry the pairing loop adds holds an individual and the score at
    its index. *)
Lemma evolved_loop_entries (fitness : list Q) (rest : list strings) :
  forall i evolved_strings result,
    evolved_loop rest i fitness evolved_strings = inr result ->
    exists new,
      result = evolved_strings ++ new /\
      length new = length rest /\
      forall e, In e new ->
        exists j p,
          nth_error rest j = Some p /\
          nth_error fitness (i + j) = Some (key e) /\
          e = (key e, fst p, snd p).
Proof.
  induction rest as [| s rest IH]; intros i evolved_strings result H.
  - inversion H. exists []. split; [now rewrite app_nil_r |].
    split; [reflexivity | intros e []].
  - cbn [evolved_loop] in H.
    destruct (getitem fitness (Z.of_nat i)) as [e | f] eqn:Ef; [discriminate |].
    destruct (IH _ _ _ H) as (new & -> & Hlen & Hnew).
    exists ((f, fst s, snd s) :: new). rewrite <- app_assoc.
    split; [reflexivity |]. split; [cbn [length]; lia |].
    intros e [<- | He].
    + exists 0, s. cbn [nth_error key fst]. rewrite Nat.add_0_r.
      split; [reflexivity |]. split; [| reflexivity].
      unfold getitem in Ef.
      replace (Z.of_nat i <? 0)%Z with false in Ef
        by (symmetry; apply Z.ltb_ge; lia).
      cbv zeta in Ef.
      replace (Z.of_nat i <? 0)%Z with false in Ef
        by (symmetry; apply Z.ltb_ge; lia).
      rewrite Nat2Z.id in Ef.
      destruct (nth_error fitness i); [congruence | discriminate].
    + destruct (Hnew e He) as (j & p & Hj & Hf & Heq).
      exists (S j), p. cbn [nth_error].
      split; [exact Hj |]. split; [| exact Heq].
      now replace (i + S j) with (S i + j) by lia.
Qed.

(** Every entry of a result holds a pair of the final population and its
    score. *)
Lemma evolve_strings_entries (population_size string_length generations
  tournament_size : nat) (rate : Q) (rng rng' : source) (res : list evolved) :
  evolve_strings population_size string_length generations tournament_size
                 rate rng = inr (res, rng') ->
  forall e, In e res ->
    both (well_formed string_length) (snd (fst e), snd e) /\ scored e.
Proof.
  intros Hrun e He.
  destruct (evolve_strings_stages _ _ _ _ _ _ _ _ Hrun)
    as (_ & population & rng0 & final & count & fitness & evs
        & Hpop & Hgen & Hfit & Hevs & ->).
  apply sort_by_key_In in He.
  destruct (generate_population_well_formed string_length population_size rng)
    as (population' & Hpop' & _ & Hwf).
  rewrite Hpop in Hpop'. inversion Hpop'. subst population'.
  pose proof (generations_loop_well_formed _ _ _ _ _ _ _ _ _ _ Hwf Hgen)
    as Hfinal.
  destruct (evolved_loop_entries _ _ _ _ _ Hevs) as (new & Hnew & _ & Hentries).
  cbn [app] in Hnew. subst new.
  destruct (Hentries e He) as (j & p & Hj & Hf & Heq).
  destruct (fitness_loop_scores _ _ _ Hfit) as (new & Hnew & Hscores).
  cbn [app] in Hnew. subst new.
  pose proof (Forall2_nth_error _ _ _ Hscores j p (key e) Hj Hf) as Hscore.
  rewrite Heq. cbn [fst snd key]. split.
  - exact (proj1 (Forall_forall _ _) Hfinal p (nth_error_In _ _ Hj)).
  - unfold scored. cbn [fst snd key]. exact Hscore.
Qed.

Lemma fitness_loop_short (L : nat) (population : list strings)
  (fitness : list Q) :
  Forall (pair_length L) population -> population <> [] -> L < 2 ->
  fitness_loop population fitness = inl ZeroDivisionError.
Proof.
  intros Hwf Hne HL. destruct population as [| p population]; [congruence |].
  apply Forall_cons_iff in Hwf. destruct Hwf as [[H0 H1] _].
  cbn [fitness_loop].
  rewrite (score_fitness_short (fst p) (snd p)); [reflexivity | | ];
    unfold str in *; congruence || lia.
Qed.

(** A generation on an even number of pairs keeps their number, and so
    does any number of further generations. *)
Lemma generations_loop_even (L t : nat) (rate : Q) (generations : nat) :
  forall population count rng,
    Forall (pair_length L) population ->
    Nat.even (length population) = true ->
    outcome (generation_error L rate)
      (fun pc => length (fst pc) = length population)
      (generations_loop generations population t rate count rng).
Proof.
  induction generations as [| generations IH];
    intros population count rng Hwf Heven.
  - reflexivity.
  - cbn [generations_loop].
    destruct (length population =? 0); [reflexivity |].
    destruct (length population <=? t); [reflexivity |].
    eapply outcome_bind;
      [apply (generate_new_strings_pair_length L); exact Hwf |].
    intros new s' _ [Hlen Hnew].
    assert (Hsame : length new = length population).
    { apply Nat.even_spec in Heven. destruct Heven as [k Hk].
      pose proof (Nat.div_mod_eq (length population) 2) as Hdiv.
      pose proof (Nat.mod_upper_bound (length population) 2) as Hmod. lia. }
    eapply outcome_weaken; [| | apply IH; [exact Hnew | now rewrite Hsame]];
      [auto |].
    intros pc Hpc. cbn beta in Hpc. lia.
Qed.

Lemma even_double (n : nat) : Nat.even (2 * n) = true.
Proof. apply Nat.even_spec. now exists n. Qed.

(** The size of the population after the loop: unchanged without a
    generation, [2 * (N / 2)] after one or more. *)
Lemma generations_loop_size (L t : nat) (rate : Q) (generations : nat)
  (population : list strings) (count : nat) (rng : source) :
  Forall (pair_length L) population ->
  t < length population ->
  outcome (generation_error L rate)
    (fun pc => length (fst pc) =
               if generations =? 0 then length population
               else 2 * (length population / 2))
    (generations_loop generations population t rate count rng).
Proof.
  intros Hwf Ht. destruct generations as [| generations]; [reflexivity |].
  cbn [generations_loop Nat.eqb].
  destruct (Nat.eqb_spec (length population) 0); [lia |].
  destruct (Nat.leb_spec (length population) t); [lia |].
  eapply outcome_bind;
    [apply (generate_new_strings_pair_length L); exact Hwf |].
  intros new s' _ [Hlen Hnew].
  eapply outcome_weaken;
    [| | apply (generations_loop_even L); [exact Hnew |]]; [auto | |].
  - intros pc Hpc. cbn beta in Hpc. lia.
  - rewrite Hlen. apply even_double.
Qed.

End EvolveShapes.

Section EvolveProperties.

Lemma over_bases_check (s : str) :
  forallb (fun b => existsb (Ascii.eqb b) bases) s = true -> over_bases s.
Proof.
  intros H. apply Forall_forall. intros b Hb.
  rewrite forallb_forall in H. specialize (H b Hb).
  apply existsb_exists in H. destruct H as (x & Hx & Hxb).
  apply Ascii.eqb_eq in Hxb. now subst x.
Qed.

Lemma sample_pairs_over_bases :
  Forall (both (fun s => length s = 5 /\ over_bases s))
         [(AAAAA, AAAAC); (TTATT, TTATC); (TTTTT, TTTAT)].
Proof.
  assert (H : forall s, length s = 5 ->
                forallb (fun b => existsb (Ascii.eqb b) bases) s = true ->
                length s = 5 /\ over_bases s)
    by (intros s Hlen Hs; split; [exact Hlen | now apply over_bases_check]).
  apply Forall_cons; [split; now apply H |].
  apply Forall_cons; [split; now apply H |].
  apply Forall_cons; [split; now apply H |].
  apply Forall_nil.
Qed.

Lemma evolve_strings_returns (population_size string_length generations
  tournament_size : nat) (rate : Q) (rng : source) :
  tournament_size < population_size -> 2 <= string_length ->
  (0 <= rate)%Q -> (rate <= 1)%Q ->
  exists res rng',
    evolve_strings population_size string_length generations tournament_size
                   rate rng = inr (res, rng').
Proof.
  intros Ht HL H0 H1.
  pose proof (evolve_strings_outcome population_size string_length generations
                tournament_size rate rng) as Hout.
  apply outcome_returns in Hout.
  - destruct Hout as (res & rng' & Hrun & _). now exists res, rng'.
  - intros e. now apply evolve_error_excluded.
Qed.

(** X19.  From a population whose strings all have length [L] (at least
    2) and are over A, C, T, G, with a rate in [0, 1],
    [generate_new_strings] returns offspring whose strings all have length
    [L], are over the alphabet and hold no run of four or more ["T"],
    whether or not the parents held one. *)
Theorem generate_new_strings_valid_sequences (L : nat)
  (population : list strings) (tournament_size : nat) (mutation_rate : Q)
  (rng : source) :
  Forall (both (fun s => length s = L /\ over_bases s)) population ->
  2 <= L -> (0 <= mutation_rate)%Q -> (mutation_rate <= 1)%Q ->
  exists new_generation rng',
    generate_new_strings population tournament_size mutation_rate rng
    = inr (new_generation, rng') /\
    Forall (both (valid_sequence L)) new_generation.
Proof.
  intros Hpop HL H0 H1.
  assert (Hscorable : Forall scorable population).
  { revert Hpop. apply Forall_impl. intros p [[Ha _] [Hb _]].
    unfold scorable, str in *. split; [congruence | lia]. }
  destruct (fitness_loop_run population Hscorable []) as (fitness & Hfit & _).
  cbn [app] in Hfit.
  pose proof (generate_new_strings_outcome 0 population tournament_size
                mutation_rate rng fitness Hfit) as Hout.
  apply outcome_returns in Hout.
  - destruct Hout as (new_generation & rng' & Hrun & _).
    exists new_generation, rng'. split; [exact Hrun |].
    apply (both_impl _ _ _ (well_formed_valid L)).
    exact (generate_new_strings_passes mutation_rate _ _
             (mutate_string_well_formed L mutation_rate)
             population tournament_size rng rng' new_generation Hpop Hrun).
  - intros e [_ Hbad]. exact (not_bad_rate mutation_rate H0 H1 Hbad).
Qed.

Lemma generate_new_strings_valid_sequences_witness :
  (Forall (both (fun s => length s = 5 /\ over_bases s))
          [(AAAAA, AAAAC); (TTATT, TTATC); (TTTTT, TTTAT)] /\
   2 <= 5 /\ (0 <= 1 # 2)%Q /\ (1 # 2 <= 1)%Q) /\
  exists new_generation rng',
    generate_new_strings [(AAAAA, AAAAC); (TTATT, TTATC); (TTTTT, TTTAT)]
                         2 (1 # 2) sample_source
    = inr (new_generation, rng') /\
    Forall (both (valid_sequence 5)) new_generation.
Proof.
  split.
  - split; [exact sample_pairs_over_bases |].
    split; [lia | split; discriminate].
  - apply (generate_new_strings_valid_sequences 5 _ 2 (1 # 2) sample_source
             sample_pairs_over_bases); [lia | discriminate | discriminate].
Defined.

(** X20.  Both strings of every entry that [evolve_strings] returns have
    length [string_length], are over A, C, T, G and hold no run of four or
    more ["T"]. *)
Theorem evolve_strings_valid_sequences (population_size string_length
  generations tournament_size : nat) (mutation_rate : Q)
  (rng : source) (evolved_strings : list evolved) (rng' : source) :
  evolve_strings population_size string_length generations tournament_size
                 mutation_rate rng = inr (evolved_strings, rng') ->
  Forall (fun e => valid_sequence string_length (snd (fst e)) /\
                   valid_sequence string_length (snd e)) evolved_strings.
Proof.
  intros Hrun. apply Forall_forall. intros e He.
  destruct (evolve_strings_entries _ _ _ _ _ _ _ _ Hrun e He) as [[Ha Hb] _].
  cbn [fst snd] in *. split; now apply well_formed_valid.
Qed.

Lemma evolve_strings_valid_sequences_witness :
  exists evolved_strings rng',
    evolve_strings 4 8 3 1 (1 # 2) sample_source = inr (evolved_strings, rng') /\
    Forall (fun e => valid_sequence 8 (snd (fst e)) /\
                     valid_sequence 8 (snd e)) evolved_strings.
Proof.
  destruct (evolve_strings_returns 4 8 3 1 (1 # 2) sample_source)
    as (res & rng' & Hrun); [lia | lia | discriminate | discriminate |].
  exists res, rng'. split; [exact Hrun |].
  exact (evolve_strings_valid_sequences 4 8 3 1 (1 # 2) sample_source res rng'
           Hrun).
Defined.

(** X21.  The fitness of every entry that [evolve_strings] returns is the
    value of [score_fitness] on the two strings of that entry. *)
Theorem evolve_strings_scores (population_size string_length generations
  tournament_size : nat) (mutation_rate : Q) (rng : source)
  (evolved_strings : list evolved) (rng' : source) :
  evolve_strings population_size string_length generations tournament_size
                 mutation_rate rng = inr (evolved_strings, rng') ->
  Forall (fun e => score_fitness (snd (fst e)) (snd e) = inr (fst (fst e)))
         evolved_strings.
Proof.
  intros Hrun. apply Forall_forall. intros e He.
  exact (proj2 (evolve_strings_entries _ _ _ _ _ _ _ _ Hrun e He)).
Qed.

Lemma evolve_strings_scores_witness :
  exists evolved_strings rng',
    evolve_strings 4 8 3 1 (1 # 2) sample_source = inr (evolved_strings, rng') /\
    Forall (fun e => score_fitness (snd (fst e)) (snd e) = inr (fst (fst e)))
           evolved_strings.
Proof.
  destruct (evolve_strings_returns 4 8 3 1 (1 # 2) sample_source)
    as (res & rng' & Hrun); [lia | lia | discriminate | discriminate |].
  exists res, rng'. split; [exact Hrun |].
  exact (evolve_strings_scores 4 8 3 1 (1 # 2) sample_source res rng' Hrun).
Defined.

(** X22.  With valid parameters [evolve_strings] returns exactly
    [population_size] entries when [generations] is 0, and exactly
    [2 * floor(population_size / 2)] entries otherwise: an odd population
    loses one pair in the first generation and none afterwards. *)
Theorem evolve_strings_size (population_size string_length generations
  tournament_size : nat) (mutation_rate : Q) (rng : source) :
  tournament_size < population_size -> 2 <= string_length ->
  (0 <= mutation_rate)%Q -> (mutation_rate <= 1)%Q ->
  exists evolved_strings rng',
    evolve_strings population_size string_length generations tournament_size
                   mutation_rate rng = inr (evolved_strings, rng') /\
    length evolved_strings =
    if generations =? 0 then population_size
    else 2 * (population_size / 2).
Proof.
  intros Ht HL H0 H1.
  destruct (evolve_strings_returns population_size string_length generations
              tournament_size mutation_rate rng Ht HL H0 H1)
    as (res & rng' & Hrun).
  exists res, rng'. split; [exact Hrun |].
  destruct (evolve_strings_stages _ _ _ _ _ _ _ _ Hrun)
    as (_ & population & rng0 & final & count & fitness & evs
        & Hpop & Hgen & Hfit & Hevs & ->).
  destruct (generate_population_run string_length population_size rng)
    as (population' & rng0' & Hpop' & Hsize & Hwf).
  rewrite Hpop in Hpop'. inversion Hpop'. subst population' rng0'.
  pose proof (generations_loop_size string_length tournament_size
                mutation_rate generations population 0 rng0 Hwf
                ltac:(lia)) as Hout.
  pose proof (outcome_value _ _ _ _ _ Hout Hgen) as Hfinal.
  cbn [fst] in Hfinal. rewrite Hsize in Hfinal.
  destruct (evolved_loop_entries _ _ _ _ _ Hevs) as (new & Hnew & Hlen & _).
  cbn [app] in Hnew. subst new.
  rewrite sort_by_key_length. congruence.
Qed.

Lemma evolve_strings_size_witness :
  (2 < 5 /\ 2 <= 6 /\ (0 <= 1 # 2)%Q /\ (1 # 2 <= 1)%Q) /\
  exists evolved_strings rng',
    evolve_strings 5 6 3 2 (1 # 2) sample_source = inr (evolved_strings, rng') /\
    length evolved_strings = if 3 =? 0 then 5 else 2 * (5 / 2).
Proof.
  split.
  - split; [lia |]. split; [lia |]. split; discriminate.
  - apply (evolve_strings_size 5 6 3 2 (1 # 2) sample_source);
      [lia | lia | discriminate | discriminate].
Defined.

(** X23.  With [generations = 0] the mutation rate is never checked: for
    a tournament size below the population size and strings of length at
    least 2, [evolve_strings] returns [population_size] entries whatever
    the rate. *)
Theorem evolve_strings_without_generations (population_size string_length
  tournament_size : nat) (mutation_rate : Q) (rng : source) :
  tournament_size < population_size -> 2 <= string_length ->
  exists evolved_strings rng',
    evolve_strings population_size string_length 0 tournament_size
                   mutation_rate rng = inr (evolved_strings, rng') /\
    length evolved_strings = population_size.
Proof.
  intros Ht HL. unfold evolve_strings.
  destruct (Nat.leb_spec population_size tournament_size); [lia |].
  destruct (generate_population_run string_length population_size rng)
    as (population & rng0 & Hpop & Hsize & Hwf).
  rewrite (bind_inr _ _ _ _ _ Hpop). cbn [generations_loop].
  rewrite bind_ret. cbv zeta. cbn [fst].
  assert (Hscorable : Forall scorable population).
  { revert Hwf. apply Forall_impl. intros p [Ha Hb].
    unfold scorable, str in *. split; [congruence | lia]. }
  destruct (fitness_loop_run population Hscorable []) as
    (fitness & Hfit & Hlen & _).
  cbn [app] in Hfit. rewrite (bind_inr _ _ _ _ _ (lift_inr _ _ rng0 Hfit)).
  destruct (evolved_loop_run fitness population 0 []) as
    (evs & Hevs & Hlen' & _); [cbn; lia |].
  cbn [app] in Hevs. rewrite (bind_inr _ _ _ _ _ (lift_inr _ _ rng0 Hevs)).
  eexists _, _. split; [reflexivity |].
  rewrite sort_by_key_length. lia.
Qed.

Lemma evolve_strings_without_generations_witness :
  (1 < 4 /\ 2 <= 8) /\
  exists evolved_strings rng',
    evolve_strings 4 8 0 1 (7 # 2) sample_source = inr (evolved_strings, rng') /\
    length evolved_strings = 4.
Proof.
  split; [lia |].
  apply (evolve_strings_without_generations 4 8 1 (7 # 2) sample_source); lia.
Defined.

(** X24.  [evolve_strings] raises the tournament-size error exactly when
    the tournament size is not below the population size, whatever the
    other parameters. *)
Theorem evolve_strings_tournament_check (population_size string_length
  generations tournament_size : nat) (mutation_rate : Q) (rng : source) :
  evolve_strings population_size string_length generations tournament_size
                 mutation_rate rng = inl InvalidTournament
  <-> population_size <= tournament_size.
Proof.
  split.
  - intros Herr.
    pose proof (evolve_strings_outcome population_size string_length
                  generations tournament_size mutation_rate rng) as Hout.
    rewrite Herr in Hout.
    destruct Hout as [[_ Hle] | [[H _] | [H _]]];
      [exact Hle | discriminate | discriminate].
  - intros Hle. unfold evolve_strings.
    destruct (Nat.leb_spec population_size tournament_size);
      [reflexivity | lia].
Qed.

(** X25.  With strings shorter than 2 and a tournament size below the
    population size, [evolve_strings] always ends in a division by zero,
    whatever the number of generations and the rate. *)
Theorem evolve_strings_short_strings (population_size string_length
  generations tournament_size : nat) (mutation_rate : Q) (rng : source) :
  tournament_size < population_size -> string_length < 2 ->
  evolve_strings population_size string_length generations tournament_size
                 mutation_rate rng = inl ZeroDivisionError.
Proof.
  intros Ht HL. unfold evolve_strings.
  destruct (Nat.leb_spec population_size tournament_size); [lia |].
  destruct (generate_population_run string_length population_size rng)
    as (population & rng0 & Hpop & Hsize & Hwf).
  rewrite (bind_inr _ _ _ _ _ Hpop).
  assert (Hne : population <> [])
    by (intros ->; cbn [length] in Hsize; lia).
  pose proof (fitness_loop_short string_length population [] Hwf Hne HL)
    as Hshort.
  destruct generations as [| generations].
  - cbn [generations_loop]. rewrite bind_ret. cbv zeta. cbn [fst].
    rewrite Hshort. reflexivity.
  - apply bind_inl. cbn [generations_loop].
    destruct (Nat.eqb_spec (length population) 0); [lia |].
    destruct (Nat.leb_spec (length population) tournament_size); [lia |].
    apply bind_inl. unfold generate_new_strings.
    rewrite Hshort. reflexivity.
Qed.

Lemma evolve_strings_short_strings_witness :
  (1 < 4 /\ 1 < 2) /\
  evolve_strings 4 1 3 1 0 sample_source = inl ZeroDivisionError.
Proof.
  split; [lia |].
  apply (evolve_strings_short_strings 4 1 3 1 0 sample_source); lia.
Defined.

End EvolveProperties.

(* ================================================================== *)
(** ** The window, identical strings and the generation count *)

Section WindowProperties.

(** X26.  The sliding window is 0 exactly for substrings of at most three
    characters; for a substring of two or more characters it leaves room
    on both sides: twice the window plus 2 is at most the length, and the
    length is at most twice the window plus 3. *)
Theorem get_sliding_window_bounds (substring : str) :
  (get_sliding_window substring = 0 <-> length substring <= 3) /\
  (2 <= length substring ->
   2 * get_sliding_window substring + 2 <= length substring /\
   length substring <= 2 * get_sliding_window substring + 3).
Proof.
  unfold get_sliding_window.
  pose proof (Nat.div_mod_eq (length substring) 2) as Hdiv.
  pose proof (Nat.mod_upper_bound (length substring) 2) as Hmod.
  destruct (Nat.ltb_spec 1 (length substring)); split; try split; lia.
Qed.

End WindowProperties.

Section IdenticalStrings.

Let single (c : ascii) : str := [c].

Lemma get_substrings_1 (s : str) : get_substrings s 1 = map single s.
Proof.
  apply nth_error_ext. intros i.
  destruct (Nat.lt_ge_cases i (length s)) as [Hi | Hi].
  - rewrite nth_error_get_substrings by lia.
    rewrite nth_error_map.
    rewrite (nth_error_nth_lt s i "."%char Hi). cbn [option_map].
    f_equal. unfold single.
    pose proof (slice_one s i "."%char Hi) as H.
    replace (i - 0) with i in H by lia.
    replace (i + 0 + 1) with (i + 1) in H by lia.
    now rewrite H.
  - rewrite (proj2 (nth_error_None _ _));
      [| rewrite length_get_substrings; lia].
    symmetry. apply nth_error_None. rewrite length_map. lia.
Qed.

Lemma score_substrings_window_0_agree (l1 l2 : list str) :
  length l1 = length l2 -> score_substrings l1 l2 0 = agreements l1 l2.
Proof.
  intros Hlen. unfold score_substrings.
  rewrite <- (agreements_fold l1 l2 Hlen).
  apply fold_left_ext_on. intros h i Hi. apply in_seq in Hi.
  apply score_at_window_0; [exact Hlen | lia].
Qed.

Lemma agreements_le (l1 l2 : list str) :
  length l1 = length l2 -> agreements l1 l2 <= length l1.
Proof.
  intros Hlen. unfold agreements.
  etransitivity; [apply filter_length_le |].
  rewrite length_combine. lia.
Qed.

Lemma agreements_cons (x y : str) (l1 l2 : list str) :
  agreements (x :: l1) (y :: l2)
  = (if str_eqb x y then 1 else 0) + agreements l1 l2.
Proof.
  unfold agreements. cbn [combine filter fst snd].
  destruct (str_eqb x y); reflexivity.
Qed.

(** Strings that agree at every position are equal. *)
Lemma agreements_all (a : str) :
  forall b,
    length a = length b ->
    agreements (map single a) (map single b) = length a -> a = b.
Proof.
  induction a as [| x a IH]; intros [| y b] Hlen Hall; try discriminate;
    [reflexivity |].
  cbn [map length] in *. rewrite agreements_cons in Hall.
  assert (Hle : agreements (map single a) (map single b) <= length a).
  { pose proof (agreements_le (map single a) (map single b)) as Hle.
    rewrite !length_map in Hle. apply Hle. lia. }
  destruct (str_eqb (single x) (single y)) eqn:E; [| lia].
  apply str_eqb_eq in E. inversion E. subst y.
  f_equal. apply IH; lia.
Qed.

(** Strings that differ score strictly less than the maximum. *)
Lemma fitness_sums_below_max (a b : str) :
  length a = length b -> 2 <= length a -> a <> b ->
  fst (fitness_sums a b) < max_total (length a).
Proof.
  intros Hlen HL Hne.
  rewrite <- (fitness_sums_max a b). unfold fitness_sums.
  assert (Hseq : seq 1 (length a - 1) = 1 :: seq 2 (length a - 2)).
  { destruct (length a) as [| [| L]]; [lia | lia |].
    cbn [Nat.sub seq]. now rewrite Nat.sub_0_r. }
  rewrite Hseq. cbn [fold_left].
  pose proof (fitness_fold_score_le a b (seq 2 (length a - 2))
                (fitness_at a b (0, 0) 1)) as Hscore.
  rewrite (fitness_fold_max a b (seq 2 (length a - 2))
             (fitness_at a b (0, 0) 1)).
  assert (Hfirst : fst (fitness_at a b (0, 0) 1)
                   < snd (fitness_at a b (0, 0) 1)).
  { unfold fitness_at. cbn [fst snd Nat.add].
    rewrite score_substrings_self, repeat_length.
    change (get_sliding_window (dots 1)) with 0.
    rewrite score_substrings_window_0_agree
      by (rewrite !length_get_substrings; lia).
    rewrite !get_substrings_1.
    assert (Hle : agreements (map single a) (map single b) <= length a).
    { pose proof (agreements_le (map single a) (map single b)) as Hle.
      rewrite !length_map in Hle. apply Hle. lia. }
    destruct (Nat.eq_dec (agreements (map single a) (map single b))
                (length a)) as [Hall | Hless].
    - exfalso. apply Hne. now apply agreements_all.
    - lia. }
  lia.
Qed.

(** X27.  On two strings of equal length at least 2, [score_fitness]
    returns exactly 1 if and only if the strings are identical. *)
Theorem score_fitness_one_iff (string_1 string_2 : str) :
  length string_1 = length string_2 -> 2 <= length string_1 ->
  (score_fitness string_1 string_2 = inr 1%Q <-> string_1 = string_2).
Proof.
  intros Hlen HL. split.
  - intros Hone.
    destruct (list_eq_dec ascii_dec string_1 string_2) as [Heq | Hne];
      [exact Heq | exfalso].
    pose proof (fitness_sums_below_max _ _ Hlen HL Hne) as Hlt.
    rewrite score_fitness_run in Hone by assumption.
    assert (Hq : Qred (Z.of_nat (fst (fitness_sums string_1 string_2))
                       # Pos.of_nat (max_total (length string_1))) = 1%Q)
      by congruence.
    pose proof (Qred_correct
                  (Z.of_nat (fst (fitness_sums string_1 string_2))
                   # Pos.of_nat (max_total (length string_1)))) as Heq1.
    rewrite Hq in Heq1.
    unfold Qeq in Heq1. cbn [Qnum Qden] in Heq1.
    rewrite Z_pos_of_nat in Heq1 by lia. lia.
  - intros <-. rewrite score_fitness_run by assumption.
    rewrite fitness_sums_self. cbn [fst]. f_equal.
    apply quotient_self. now apply max_total_pos.
Qed.

Lemma score_fitness_one_iff_witness :
  (length ACGT = length ACTT /\ 2 <= length ACGT) /\
  (score_fitness ACGT ACTT = inr 1%Q <-> ACGT = ACTT).
Proof.
  split.
  - cbn. lia.
  - apply (score_fitness_one_iff ACGT ACTT); cbn; lia.
Defined.

End IdenticalStrings.

Section GenerationCount.

Lemma generation_error_excluded (L : nat) (rate : Q) (e : exn) :
  2 <= L -> (0 <= rate)%Q -> (rate <= 1)%Q -> ~ generation_error L rate e.
Proof.
  intros HL H0 H1 [[_ Hlt] | [_ Hbad]]; [lia |].
  exact (not_bad_rate rate H0 H1 Hbad).
Qed.

(** While the population is even and larger than the tournament, every
    generation runs. *)
Lemma generations_loop_count_all (L t : nat) (rate : Q) (generations : nat) :
  forall population count rng,
    Forall (pair_length L) population ->
    Nat.even (length population) = true ->
    t < length population ->
    outcome (generation_error L rate)
      (fun pc => snd pc = count + generations)
      (generations_loop generations population t rate count rng).
Proof.
  induction generations as [| generations IH];
    intros population count rng Hwf Heven Ht.
  - cbn. lia.
  - cbn [generations_loop].
    destruct (Nat.eqb_spec (length population) 0); [lia |].
    destruct (Nat.leb_spec (length population) t); [lia |].
    eapply outcome_bind;
      [apply (generate_new_strings_pair_length L); exact Hwf |].
    intros new s' _ [Hlen Hnew].
    assert (Hsame : length new = length population).
    { apply Nat.even_spec in Heven. destruct Heven as [k Hk].
      pose proof (Nat.div_mod_eq (length population) 2) as Hdiv.
      pose proof (Nat.mod_upper_bound (length population) 2) as Hmod. lia. }
    eapply outcome_weaken;
      [| | apply IH; [exact Hnew | now rewrite Hsame | lia]]; [auto |].
    intros pc Hpc. cbn beta in Hpc. lia.
Qed.

(** A population that is empty or not larger than the tournament stops the
    loop at once. *)
Lemma generations_loop_stops (t : nat) (rate : Q) (generations : nat)
  (population : list strings) (count : nat) (rng : source) :
  length population <= t ->
  generations_loop generations population t rate count rng
  = inr (population, count, rng).
Proof.
  intros Hle. destruct generations as [| generations]; [reflexivity |].
  cbn [generations_loop].
  destruct (length population =? 0); [reflexivity |].
  destruct (Nat.leb_spec (length population) t); [reflexivity | lia].
Qed.

(** X28.  The count of completed generations: from a population larger
    than the tournament, with strings of length at least 2 and a rate in
    [0, 1], the loop completes all [generations] when the tournament size
    is below [2 * floor(N / 2)], and otherwise stops after the first one
    (an odd population with a tournament size of [N - 1]). *)
Theorem generations_loop_count (L : nat) (population : list strings)
  (tournament_size : nat) (mutation_rate : Q) (generations count : nat)
  (rng : source) :
  Forall (fun p => length (fst p) = L /\ length (snd p) = L) population ->
  2 <= L -> (0 <= mutation_rate)%Q -> (mutation_rate <= 1)%Q ->
  tournament_size < length population ->
  exists final count' rng',
    generations_loop generations population tournament_size mutation_rate
                     count rng = inr (final, count', rng') /\
    count' = count +
             (if generations =? 0 then 0
              else if tournament_size <? 2 * (length population / 2)
                   then generations else 1).
Proof.
  intros Hwf HL H0 H1 Ht.
  assert (Hout : outcome (generation_error L mutation_rate)
                   (fun pc => snd pc = count +
                      (if generations =? 0 then 0
                       else if tournament_size <? 2 * (length population / 2)
                            then generations else 1))
                   (generations_loop generations population tournament_size
                                     mutation_rate count rng)).
  { destruct generations as [| generations]; [cbn; lia |].
    cbn [generations_loop Nat.eqb].
    destruct (Nat.eqb_spec (length population) 0); [lia |].
    destruct (Nat.leb_spec (length population) tournament_size); [lia |].
    eapply outcome_bind;
      [apply (generate_new_strings_pair_length L); exact Hwf |].
    intros new s' _ [Hlen Hnew]. rewrite <- Hlen.
    destruct (Nat.ltb_spec tournament_size (length new)) as [Hrun | Hstop].
    - eapply outcome_weaken;
        [| | apply (generations_loop_count_all L);
             [exact Hnew | rewrite Hlen; apply even_double | exact Hrun]];
        [auto |].
      intros pc Hpc. cbn beta in Hpc. lia.
    - rewrite generations_loop_stops by exact Hstop. cbn. lia. }
  apply outcome_returns in Hout.
  - destruct Hout as ([final count'] & rng' & Hrun & Hcount).
    now exists final, count', rng'.
  - intros e. now apply generation_error_excluded.
Qed.

Lemma generations_loop_count_witness :
  (Forall (fun p => length (fst p) = 5 /\ length (snd p) = 5)
          [(AAAAA, AAAAC); (TTATT, TTATC); (TTTTT, TTTAT)] /\
   2 <= 5 /\ (0 <= 1 # 2)%Q /\ (1 # 2 <= 1)%Q /\
   2 < length [(AAAAA, AAAAC); (TTATT, TTATC); (TTTTT, TTTAT)]) /\
  exists final count' rng',
    generations_loop 7 [(AAAAA, AAAAC); (TTATT, TTATC); (TTTTT, TTTAT)]
                     2 (1 # 2) 0 sample_source = inr (final, count', rng') /\
    count' = 0 + (if 7 =? 0 then 0
                  else if 2 <? 2 * (length [(AAAAA, AAAAC); (TTATT, TTATC);
                                            (TTTTT, TTTAT)] / 2)
                       then 7 else 1).
Proof.
  assert (Hwf : Forall (fun p => length (fst p) = 5 /\ length (snd p) = 5)
                  [(AAAAA, AAAAC); (TTATT, TTATC); (TTTTT, TTTAT)]).
  { apply Forall_cons; [split; reflexivity |].
    apply Forall_cons; [split; reflexivity |].
    apply Forall_cons; [split; reflexivity |].
    apply Forall_nil. }
  split.
  - split; [exact Hwf |]. split; [lia |].
    split; [discriminate |]. split; [discriminate | cbn; lia].
  - apply (generations_loop_count 5 _ 2 (1 # 2) 7 0 sample_source Hwf);
      [lia | discriminate | discriminate | cbn; lia].
Defined.

End GenerationCount.
